(** * Serviette: the rebuild-coordination core of [index.js]

    A shallow embedding of [compare], [equalsState], [LockQueue] and
    [Rebuilder] (rebuildIfNecessary, scan, gatherState, rebuild).  Node's
    event loop is explicit: every JavaScript callback is one atomic
    transition, the environment (file system, child process, HTTP
    requests) chooses which pending operation completes next and with
    what result. *)

From stdpp Require Import base list strings numbers.
From Stdlib Require Import QArith Qcanon Sorted Permutation.

Open Scope Z_scope.

(** ** Data model *)

(** One element of [disk_state]: [{ path: path, mtime: stat.mtimeMs }].
    [mtimeMs] is a finite double (milliseconds, with a fractional part);
    it is kept as its exact rational value, on which JavaScript's [!=]
    is disequality of values. *)
Record entry := Entry { path : string; mtime : Qc }.

#[global] Instance entry_eq_dec : EqDecision entry.
Proof. solve_decision. Defined.

(** The values that travel as [err]: [null], a string (the build's
    output) or an [Error] object (from [fs] or from the child). *)
Inductive value :=
| VNull
| VStr (s : string)
| VError (message : string).

#[global] Instance value_eq_dec : EqDecision value.
Proof. solve_decision. Defined.

(** JavaScript truthiness, as tested by [if (err)] and [!command]. *)
Definition truthy (v : value) : bool :=
  match v with
  | VNull => false
  | VStr s => bool_decide (s ≠ "")
  | VError _ => true
  end.

(** ** [compare] *)

(** [a < b] on strings: lexicographic on code units, a proper prefix
    first.  (Paths are kept as strings of 8-bit characters.) *)
Definition js_lt (a b : string) : bool := String.ltb a b.

Definition compare (a b : string) : Z :=
  if js_lt a b then -1
  else if js_lt b a then 1
  else 0.

(** [a <= b] on paths: what [compare] reports as "not after". *)
Definition path_le (a b : string) : Prop := compare a b ≤ 0.

(** The order [results.sort] is to establish on entries. *)
Definition entry_le (a b : entry) : Prop := path_le (path a) (path b).

(** [Array.prototype.sort(comparefn)]: a stable sort, written as an
    insertion sort; the element [x] goes after [y] exactly when
    [comparefn(x, y) > 0]. *)
Section Sort.
Context {A : Type} (comparefn : A → A → Z).

Fixpoint sort_insert (x : A) (l : list A) : list A :=
  match l with
  | [] => [x]
  | y :: l' =>
      if bool_decide (comparefn x y ≤ 0) then x :: y :: l'
      else y :: sort_insert x l'
  end.

Fixpoint sort (l : list A) : list A :=
  match l with
  | [] => []
  | x :: l' => sort_insert x (sort l')
  end.
End Sort.

(** [results.sort((a, b) => compare(a.path, b.path))] *)
Definition sort_results (results : list entry) : list entry :=
  sort (λ a b, compare (path a) (path b)) results.

(** ** [equalsState] *)

(** The body of the [for] loop from index [i], with [n] iterations left;
    [None] is the TypeError of reading a property of [undefined]. *)
Fixpoint equalsState_loop (new_state previous_state : list entry)
    (i : nat) (n : nat) : option bool :=
  match n with
  | O => Some true
  | S n' =>
      match new_state !! i, previous_state !! i with
      | Some a, Some b =>
          if bool_decide (path a ≠ path b) then Some false
          else if bool_decide (mtime a ≠ mtime b) then Some false
          else equalsState_loop new_state previous_state (S i) n'
      | _, _ => None
      end
  end.

(** [None] as an argument is [null]/[undefined]; [None] as a result is a
    thrown TypeError ([new_state.length] of a falsy [new_state]). *)
Definition equalsState (new_state previous_state : option (list entry))
    : option bool :=
  match new_state, previous_state with
  | Some _, None => Some false
  | None, Some _ => Some false
  | None, None => None
  | Some ns, Some ps =>
      if bool_decide (length ns ≠ length ps) then Some false
      else equalsState_loop ns ps 0 (length ns)
  end.

(** ** [LockQueue] *)

(** A queued [locked_cb] is named by a number (in [Rebuilder], the
    request whose closure it is).  [next_ticks] counts the callbacks
    given to [process.nextTick] and not yet run; every one of them is
    [() => this._dispatch()]. *)
Record LockQueue := MkLockQueue {
  lock_queue : list nat;
  next_ticks : nat }.

Definition nextTick (q : LockQueue) : LockQueue :=
  MkLockQueue (lock_queue q) (S (next_ticks q)).

(** [constructor()] *)
Definition new_LockQueue : LockQueue := MkLockQueue [] 0.

(** [lock(callback)] *)
Definition lock (callback : nat) (q : LockQueue) : LockQueue :=
  let q := MkLockQueue (lock_queue q ++ [callback]) (next_ticks q) in
  if bool_decide (length (lock_queue q) = 1%nat) then nextTick q else q.

(** The [unlock] closure made by [_dispatch]; [shift] on an empty array
    does nothing. *)
Definition unlock (q : LockQueue) : LockQueue :=
  let q := MkLockQueue (tail (lock_queue q)) (next_ticks q) in
  if bool_decide (0 < length (lock_queue q))%nat then nextTick q else q.

(** [_dispatch()]: the [item] it calls with [unlock]; [None] when
    [this.lock_queue[0]] is [undefined] and the call throws. *)
Definition _dispatch (q : LockQueue) : option nat := head (lock_queue q).

(** ** The clients of a [LockQueue] *)

(** What can happen to a lock: some code calls [lock(cb)], a pending
    tick runs [_dispatch], or the operation [cb] calls the [unlock] it
    was given. *)
Inductive lock_event :=
| LLock (cb : nat)
| LTick
| LUnlock (cb : nat).

(** The lock with the history of its use: the callbacks given to [lock],
    those [_dispatch] has called, those called and not yet done with the
    lock (they have not called [unlock]), and whether [_dispatch] threw. *)
Record lock_state := LockState {
  lq : LockQueue;
  arrived : list nat;
  started : list nat;
  running : list nat;
  lthrown : bool }.

Definition lock_initial : lock_state :=
  LockState new_LockQueue [] [] [] false.

Fixpoint remove_first (cb : nat) (l : list nat) : list nat :=
  match l with
  | [] => []
  | x :: l' => if bool_decide (x = cb) then l' else x :: remove_first cb l'
  end.

Definition lock_step (st : lock_state) (e : lock_event) : lock_state :=
  match e with
  | LLock cb =>
      LockState (lock cb (lq st)) (arrived st ++ [cb]) (started st)
        (running st) (lthrown st)
  | LTick =>
      match next_ticks (lq st) with
      | O => st
      | S n =>
          let q := MkLockQueue (lock_queue (lq st)) n in
          match _dispatch q with
          | None => LockState q (arrived st) (started st) (running st) true
          | Some item =>
              LockState q (arrived st) (started st ++ [item])
                (running st ++ [item]) (lthrown st)
          end
      end
  | LUnlock cb =>
      LockState (unlock (lq st)) (arrived st) (started st)
        (remove_first cb (running st)) (lthrown st)
  end.

Definition lock_run (st : lock_state) (es : list lock_event) : lock_state :=
  foldl lock_step st es.

(** The contract of the lock's users: [unlock] is called by an operation
    that holds the lock, once.  (A tick runs only if one is pending, and
    nothing runs after an uncaught exception.) *)
Definition lock_allowed (st : lock_state) (e : lock_event) : bool :=
  negb (lthrown st) &&
  match e with
  | LLock _ => true
  | LTick => bool_decide (0 < next_ticks (lq st))%nat
  | LUnlock cb => bool_decide (cb ∈ running st)
  end.

Fixpoint disciplined (st : lock_state) (es : list lock_event) : bool :=
  match es with
  | [] => true
  | e :: es' => lock_allowed st e && disciplined (lock_step st e) es'
  end.

(** The invariant of a lock used under its contract: the callbacks that
    arrived are those done with the lock followed by the queue; at most
    the head of the queue is running, and a tick is pending exactly when
    the queue is not empty and nothing runs. *)
Definition lock_inv (st : lock_state) : Prop :=
  lthrown st = false ∧
  ∃ finished,
    arrived st = finished ++ lock_queue (lq st) ∧
    started st = finished ++ running st ∧
    ((running st = [] ∧
      next_ticks (lq st) = match lock_queue (lq st) with [] => 0 | _ => 1 end%nat)
     ∨ (∃ h t, lock_queue (lq st) = h :: t ∧ running st = [h] ∧
               next_ticks (lq st) = 0%nat)).

(** ** The running process *)

(** The two callbacks ever given to [gatherState], each closed over the
    [callback] of the [rebuildIfNecessary] call [r] it belongs to. *)
Inductive gather_cb :=
| ScanCb (r : nat)     (* scan's wrapper around [(err, results) => {...}] *)
| ResyncCb (r : nat).  (* the [(err, results) => {...}] after a build *)

(** The closure of one [gatherState] call. *)
Record gather := Gather {
  expected : Z;
  results : list entry;
  callback : gather_cb }.

(** The closure of one [rebuild] call that started a child. *)
Record child := Child {
  output : string;
  signaled : bool;
  child_cb : nat }.

(** [this.disk_state] is a reference: to the array made by the
    constructor, or to the [results] array of a [gatherState] call, which
    that call keeps and may still mutate. *)
Inductive ref :=
| RInit
| RResults (sid : nat).

(** What the process does that the outside can see, oldest first. *)
Inductive obs :=
| OLocked (r : nat)                    (* [item(unlock)] runs r's operation *)
| OUnlock (r : nat)                    (* [unlock()] in r's operation *)
| ODone (r : nat) (err : value)        (* rebuildIfNecessary's [callback(err)] *)
| OGather (sid : nat) (cb : gather_cb) (err : value) (rs : list entry)
                                       (* gatherState's [callback(err, results)] *)
| OCompare (ns ps : list entry)        (* [equalsState(results, this.disk_state)] *)
| OStore (r : nat) (rs : list entry)   (* [this.disk_state = results] *)
| OSpawn (r : nat) (command : string)  (* [child_process.exec(command)] *)
| OBuilt (r : nat) (err : value).      (* rebuild's [callback(err)] *)

#[global] Instance gather_cb_eq_dec : EqDecision gather_cb.
Proof. solve_decision. Defined.
#[global] Instance obs_eq_dec : EqDecision obs.
Proof. solve_decision. Defined.

Record state := State {
  lockq : LockQueue;            (* [this.lock] and the pending ticks *)
  disk_state : ref;
  gathers : list gather;        (* every gatherState closure, by creation *)
  stats : list (nat * string);  (* [fs.stat] calls in flight *)
  readdirs : list (nat * string); (* [fs.readdir] calls in flight *)
  children : list child;        (* every child started, by creation *)
  thrown : bool;                (* an uncaught exception ended the process *)
  trace : list obs }.

Definition set_lockq (q : LockQueue) (s : state) : state :=
  State q (disk_state s) (gathers s) (stats s) (readdirs s)
    (children s) (thrown s) (trace s).
Definition set_disk_state (d : ref) (s : state) : state :=
  State (lockq s) d (gathers s) (stats s) (readdirs s)
    (children s) (thrown s) (trace s).
Definition set_gathers (g : list gather) (s : state) : state :=
  State (lockq s) (disk_state s) g (stats s) (readdirs s)
    (children s) (thrown s) (trace s).
Definition set_stats (p : list (nat * string)) (s : state) : state :=
  State (lockq s) (disk_state s) (gathers s) p (readdirs s)
    (children s) (thrown s) (trace s).
Definition set_readdirs (p : list (nat * string)) (s : state) : state :=
  State (lockq s) (disk_state s) (gathers s) (stats s) p
    (children s) (thrown s) (trace s).
Definition set_children (c : list child) (s : state) : state :=
  State (lockq s) (disk_state s) (gathers s) (stats s)
    (readdirs s) c (thrown s) (trace s).
Definition throw (s : state) : state :=
  State (lockq s) (disk_state s) (gathers s) (stats s)
    (readdirs s) (children s) true (trace s).
Definition emit (o : obs) (s : state) : state :=
  State (lockq s) (disk_state s) (gathers s) (stats s)
    (readdirs s) (children s) (thrown s) (trace s ++ [o]).

(** The array [this.disk_state] points to. *)
Definition results_of (sid : nat) (s : state) : list entry :=
  from_option results [] (gathers s !! sid).
Definition disk_state_value (s : state) : list entry :=
  match disk_state s with
  | RInit => []
  | RResults sid => results_of sid s
  end.

(** [new Rebuilder(root, rebuild_command)] before any request. *)
Definition initial : state :=
  State new_LockQueue RInit [] [] [] [] false [].

(** ** [rebuild]: the child and its handlers *)

(** What [child_process] reports about a child. *)
Inductive child_event :=
| Data (data : string)
    (* ["data"] on [child.stdout] or on [child.stderr] *)
| Error (err : string)
    (* ["error"] on [child] *)
| Exit (code : option Z) (signal : option string).
    (* ["exit"] on [child]; [None] is [null] *)

(** [code || signal] *)
Definition code_or_signal (code : option Z) (signal : option string) : bool :=
  match code with
  | Some n => bool_decide (n ≠ 0)
  | None => false
  end
  || match signal with
     | Some sg => bool_decide (sg ≠ "")
     | None => false
     end.

(** One handler run on the closure of a [rebuild] call: the closure
    afterwards, and the argument of [callback] if it was called. *)
Definition child_handler (ch : child) (e : child_event)
    : child * option value :=
  match e with
  | Data data => (Child (output ch +:+ data) (signaled ch) (child_cb ch), None)
  | Error err =>
      if signaled ch then (ch, None)
      else (Child (output ch) true (child_cb ch), Some (VError err))
  | Exit code signal =>
      if signaled ch then (ch, None)
      else
        (Child (output ch) true (child_cb ch),
         Some (if code_or_signal code signal then VStr (output ch) else VNull))
  end.

(** The calls of [callback] made by one [rebuild] call with a command,
    as the child reports [es]: the closure starts as [output = ""],
    [signaled = false]. *)
Fixpoint child_callbacks (ch : child) (es : list child_event) : list value :=
  match es with
  | [] => []
  | e :: es' =>
      let '(ch', called) := child_handler ch e in
      match called with
      | Some err => err :: child_callbacks ch' es'
      | None => child_callbacks ch' es'
      end
  end.

Definition new_child (r : nat) : child := Child "" false r.

(** ** [Rebuilder] *)

(** What the environment hands to the process: each event runs one
    JavaScript callback to completion.  ([printStatus] and [console.log]
    only write to the console and are left out.) *)
Inductive event :=
| Request (r : nat)
    (* [rebuilder.rebuildIfNecessary(callback)], for request [r] *)
| Tick
    (* the oldest [process.nextTick] callback runs *)
| StatDone (i : nat) (res : string + Qc * bool)
    (* the [i]-th pending [fs.stat] calls back: an error, or
       [stat.mtimeMs] and [stat.isDirectory()] *)
| ReaddirDone (i : nat) (res : string + list string)
    (* the [i]-th pending [fs.readdir] calls back: an error or [files] *)
| ChildEvent (c : nat) (e : child_event).
    (* an event on [child], [child.stdout] or [child.stderr] of the
       [c]-th child *)

Section Rebuilder.
(** [this.root], [this.rebuild_command], and the host's [path.join]. *)
Variable root : string.
Variable rebuild_command : option string.
Variable path_join : string → string → string.

Definition update_gather (sid : nat) (f : gather → gather) (s : state)
    : state :=
  set_gathers (alter f sid (gathers s)) s.

Definition expected_of (sid : nat) (s : state) : Z :=
  from_option expected 0 (gathers s !! sid).

(** *** [gatherState]: [begin], [walk] and the call itself *)

Definition begin (sid : nat) (s : state) : state :=
  update_gather sid
    (λ g, Gather (expected g + 1) (results g) (callback g)) s.

Definition walk (sid : nat) (path : string) (s : state) : state :=
  let s := begin sid s in
  set_stats (stats s ++ [(sid, path)]) s.

Definition gatherState (cb : gather_cb) (s : state) : state :=
  let sid := length (gathers s) in
  let s := set_gathers (gathers s ++ [Gather 0 [] cb]) s in
  walk sid root s.

(** *** [rebuildIfNecessary] and its callbacks, innermost first *)

(** [unlock(); callback(err);] in the operation of request [r]. *)
Definition finish (r : nat) (err : value) (s : state) : state :=
  let s := emit (OUnlock r) (set_lockq (unlock (lockq s)) s) in
  emit (ODone r err) s.

(** The [err => {...}] given to [this.rebuild]. *)
Definition built_cb (r : nat) (err : value) (s : state) : state :=
  let s := emit (OBuilt r err) s in
  if truthy err then finish r err s
  else gatherState (ResyncCb r) s.

(** [!command] *)
Definition no_command : bool :=
  match rebuild_command with
  | Some command => bool_decide (command = "")
  | None => true
  end.

(** [rebuild(callback)] up to [child_process.exec]; the handlers it
    registers are [child_handler]. *)
Definition rebuild (r : nat) (s : state) : state :=
  match rebuild_command with
  | Some command =>
      if bool_decide (command = "") then built_cb r VNull s
      else
        emit (OSpawn r command)
          (set_children (children s ++ [new_child r]) s)
  | None => built_cb r VNull s
  end.

(** [callback(err, results)] inside the [gatherState] call [sid]. *)
Definition gather_callback (sid : nat) (err : value) (s : state) : state :=
  match gathers s !! sid with
  | None => s
  | Some g =>
      let s := emit (OGather sid (callback g) err (results g)) s in
      match callback g with
      | ScanCb r =>
          (* [if (err || equalsState(results, this.disk_state))] *)
          if truthy err then finish r err s
          else
            let s := emit (OCompare (results g) (disk_state_value s)) s in
            match equalsState (Some (results g))
                    (Some (disk_state_value s)) with
            | None => throw s
            | Some true => finish r err s
            | Some false => rebuild r s
            end
      | ResyncCb r =>
          let s :=
            if truthy err then s
            else emit (OStore r (results g))
                   (set_disk_state (RResults sid) s) in
          finish r err s
      end
  end.

(** *** [gatherState]: [done], [error] and the [fs] callbacks *)

Definition done (sid : nat) (s : state) : state :=
  let s := update_gather sid
    (λ g, Gather (expected g - 1) (results g) (callback g)) s in
  if bool_decide (expected_of sid s = 0) then
    let s := update_gather sid
      (λ g, Gather (expected g) (sort_results (results g)) (callback g)) s in
    gather_callback sid VNull s
  else s.

Definition error (sid : nat) (err : value) (s : state) : state :=
  let s := update_gather sid
    (λ g, Gather (-1) (results g) (callback g)) s in
  gather_callback sid err s.

(** [(err, stat) => {...}] of [fs.stat(path, ...)] *)
Definition stat_callback (sid : nat) (path : string)
    (res : string + Qc * bool) (s : state) : state :=
  match res with
  | inl err => error sid (VError err) s
  | inr (mtimeMs, isDirectory) =>
      let s := update_gather sid
        (λ g, Gather (expected g) (results g ++ [Entry path mtimeMs])
                (callback g)) s in
      if isDirectory then set_readdirs (readdirs s ++ [(sid, path)]) s
      else done sid s
  end.

(** [(err, files) => {...}] of [fs.readdir(path, ...)] *)
Definition readdir_callback (sid : nat) (path : string)
    (res : string + list string) (s : state) : state :=
  match res with
  | inl err => error sid (VError err) s
  | inr files =>
      done sid (foldl (λ s f, walk sid (path_join path f) s) s files)
  end.

(** *** [rebuild]: the handlers on the child *)

(** One event on child [c]: its handler runs on the closure, and the
    [callback] of that [rebuild] call is invoked if the handler says so. *)
Definition child_event_callback (c : nat) (e : child_event) (s : state)
    : state :=
  match children s !! c with
  | None => s
  | Some ch =>
      let '(ch', called) := child_handler ch e in
      let s := set_children (<[c := ch']> (children s)) s in
      match called with
      | Some err => built_cb (child_cb ch) err s
      | None => s
      end
  end.

(** *** Entry points *)

Definition rebuildIfNecessary (r : nat) (s : state) : state :=
  set_lockq (lock r (lockq s)) s.

(** A tick: [this._dispatch()], and in it the [unlock => {...}] of
    [rebuildIfNecessary], which is [this.scan(...)]. *)
Definition dispatch_tick (s : state) : state :=
  match _dispatch (lockq s) with
  | None => throw s
  | Some r => gatherState (ScanCb r) (emit (OLocked r) s)
  end.

(** One turn of the event loop.  [None]: the event cannot happen (the
    process has died, the operation is not pending, or ticks are still
    queued, which Node runs before any I/O callback). *)
Definition step (s : state) (e : event) : option state :=
  if thrown s then None
  else
    match e, next_ticks (lockq s) with
    | Tick, S n =>
        Some (dispatch_tick
                (set_lockq (MkLockQueue (lock_queue (lockq s)) n) s))
    | Tick, O => None
    | _, S _ => None
    | Request r, O => Some (rebuildIfNecessary r s)
    | StatDone i res, O =>
        '(sid, path) ← stats s !! i;
        Some (stat_callback sid path res (set_stats (delete i (stats s)) s))
    | ReaddirDone i res, O =>
        '(sid, path) ← readdirs s !! i;
        Some (readdir_callback sid path res
                (set_readdirs (delete i (readdirs s)) s))
    | ChildEvent c e, O =>
        _ ← children s !! c; Some (child_event_callback c e s)
    end.

Fixpoint run (s : state) (es : list event) : option state :=
  match es with
  | [] => Some s
  | e :: es' => s' ← step s e; run s' es'
  end.
End Rebuilder.

(** ** What one turn of the event loop adds to the trace *)

(** By [rebuild(callback)]. *)
Inductive rebuild_obs (rebuild_command : option string) (r : nat)
  : list obs → Prop :=
| rebuild_obs_none :
    no_command rebuild_command = true →
    rebuild_obs rebuild_command r [OBuilt r VNull]
| rebuild_obs_spawn command :
    rebuild_command = Some command → command ≠ "" →
    rebuild_obs rebuild_command r [OSpawn r command].

(** By the callback [cb] of a [gatherState] call, after it is given
    [err] and [rs]. *)
Inductive gather_obs (rebuild_command : option string)
    (err : value) (rs : list entry) : gather_cb → list obs → Prop :=
| gather_scan_failed r :
    truthy err = true →
    gather_obs rebuild_command err rs (ScanCb r) [OUnlock r; ODone r err]
| gather_scan_equal r ps :
    truthy err = false → rs = ps →
    gather_obs rebuild_command err rs (ScanCb r)
      [OCompare rs ps; OUnlock r; ODone r err]
| gather_scan_differs r ps d :
    truthy err = false → rs ≠ ps → rebuild_obs rebuild_command r d →
    gather_obs rebuild_command err rs (ScanCb r) (OCompare rs ps :: d)
| gather_resync_failed r :
    truthy err = true →
    gather_obs rebuild_command err rs (ResyncCb r) [OUnlock r; ODone r err]
| gather_resync_ok r :
    truthy err = false →
    gather_obs rebuild_command err rs (ResyncCb r)
      [OStore r rs; OUnlock r; ODone r err].

(** By one event, from state [s]. *)
Inductive step_obs (rebuild_command : option string) (s : state)
  : list obs → Prop :=
| step_silent : step_obs rebuild_command s []
| step_locked r : step_obs rebuild_command s [OLocked r]
| step_gather sid cb err rs d :
    (err = VNull ∧ StronglySorted entry_le rs) ∨ (∃ e, err = VError e) →
    gather_obs rebuild_command err rs cb d →
    step_obs rebuild_command s (OGather sid cb err rs :: d)
| step_built_failed r err :
    truthy err = true → children s ≠ [] →
    step_obs rebuild_command s [OBuilt r err; OUnlock r; ODone r err]
| step_built_ok r err :
    truthy err = false → children s ≠ [] →
    step_obs rebuild_command s [OBuilt r err].

(** [output] after the chunks of ["data"] arrived in this order. *)
Definition combined_output (chunks : list string) : string :=
  foldl (λ out data, out +:+ data) "" chunks.

(** The host's [path.join] on a directory and a file name, as used in
    the examples. *)
Definition posix_join (dir file : string) : string := dir +:+ "/" +:+ file.

(** What the trace says of the arrays a scan hands over: the array of
    a successful [callback(null, results)], the first argument of
    [equalsState], and the array stored in [this.disk_state] are sorted
    by path. *)
Definition obs_sorted (o : obs) : Prop :=
  match o with
  | OGather _ _ VNull rs => StronglySorted entry_le rs
  | OCompare ns _ => StronglySorted entry_le ns
  | OStore _ rs => StronglySorted entry_le rs
  | _ => True
  end.

(** The request a [gatherState] callback belongs to. *)
Definition request_of (cb : gather_cb) : nat :=
  match cb with
  | ScanCb r => r
  | ResyncCb r => r
  end.

(** A modification time used in the examples. *)
Definition ms (n : Z) : Qc := Q2Qc (inject_Z n).

(** What holds of a trace when no build command is configured: no child
    was started; an error handed to a request's callback is the error
    some [gatherState] call of that request reported; the callback of a
    rescan hands its error (or [null]) on to the request's callback; and
    so does the callback of a first scan, unless it reported [null] and
    went on to the (empty) build step. *)
Definition done_as_scanned (t : list obs) : Prop :=
  (∀ r command, OSpawn r command ∉ t) ∧
  (∀ r v, ODone r v ∈ t →
          ∃ sid cb rs, request_of cb = r ∧ OGather sid cb v rs ∈ t) ∧
  (∀ sid r v rs, OGather sid (ResyncCb r) v rs ∈ t → ODone r v ∈ t) ∧
  (∀ sid r v rs, OGather sid (ScanCb r) v rs ∈ t →
                 ODone r v ∈ t ∨ (v = VNull ∧ OBuilt r VNull ∈ t)).

(** In [t], every call of a request's callback comes right after the
    [unlock()] of the same operation, and every [unlock()] is followed
    at once by that call. *)
Definition unlock_then_done (t : list obs) : Prop :=
  (∀ i r v, t !! i = Some (ODone r v) →
            ∃ j, i = S j ∧ t !! j = Some (OUnlock r)) ∧
  (∀ i r, t !! i = Some (OUnlock r) → ∃ v, t !! S i = Some (ODone r v)).


(** ** [gatherState] while no [fs] call fails *)

(** No [fs] call fails. *)
Definition fs_ok (e : event) : bool :=
  match e with
  | StatDone _ (inl _) | ReaddirDone _ (inl _) => false
  | _ => true
  end.

(** The [fs] calls of the [gatherState] call [sid] that are in flight. *)
Definition in_flight (sid : nat) (s : state) : nat :=
  (length (filter (λ p, p.1 = sid) (stats s)) +
   length (filter (λ p, p.1 = sid) (readdirs s)))%nat.

Definition is_gather (sid : nat) (o : obs) : Prop :=
  match o with
  | OGather sid' _ _ _ => sid' = sid
  | _ => False
  end.

#[global] Instance is_gather_dec (sid : nat) (o : obs) :
  Decision (is_gather sid o).
Proof. destruct o; simpl; apply _. Defined.

(** How often the callback of the [gatherState] call [sid] was invoked. *)
Definition calls (sid : nat) (t : list obs) : nat :=
  length (filter (is_gather sid) t).

(** While no [fs] call fails: a [gatherState] call that has not called
    back counts its calls in flight in [expected], and has some; one
    that has called back did so once and has none. *)
Definition gather_inv_at (s : state) (sid : nat) : Prop :=
  match gathers s !! sid with
  | Some g =>
      (calls sid (trace s) = 0%nat ∧ expected g = Z.of_nat (in_flight sid s) ∧
       (0 < in_flight sid s)%nat) ∨
      (calls sid (trace s) = 1%nat ∧ in_flight sid s = 0%nat)
  | None => in_flight sid s = 0%nat ∧ calls sid (trace s) = 0%nat
  end.

Definition gather_inv (s : state) : Prop := ∀ sid, gather_inv_at s sid.

(** ** [printStatus] *)

(** [while (result.length < padding) { result += "="; }] with at most
    [fuel] turns of the loop; [None] if they do not suffice. *)
Fixpoint printStatus_loop (fuel : nat) (padding : Z) (result : string)
    : option string :=
  if bool_decide (Z.of_nat (String.length result) < padding) then
    match fuel with
    | O => None
    | S fuel' => printStatus_loop fuel' padding (result +:+ "=")
    end
  else Some result.

(** The line [console.log(result, status)] writes: its arguments
    separated by a space.  [padding] is at most 79, so 79 turns of the
    loop are allowed. *)
Definition printStatus (status : string) : option string :=
  let padding := 79 - Z.of_nat (String.length status) in
  result ← printStatus_loop 79 padding "";
  Some (result +:+ " " +:+ status).

(** [n] times ["="]. *)
Fixpoint equals_signs (n : nat) : string :=
  match n with
  | O => ""
  | S n' => "=" +:+ equals_signs n'
  end.

(** ** The command line *)

(** [parts.join(sep)] on an array of strings *)
Fixpoint js_join (sep : string) (parts : list string) : string :=
  match parts with
  | [] => ""
  | [x] => x
  | x :: rest => x +:+ sep +:+ js_join sep rest
  end.

(** [parsed["<cmd>"].length > 0 ? parsed["<cmd>"].join(" ") : null] *)
Definition command_of (cmd : list string) : option string :=
  if bool_decide (0 < length cmd)%nat then Some (js_join " " cmd) else None.

(** In [t], with [rebuild_command] configured: a child is started only
    right after [equalsState] found a difference, and with the
    configured command; and what follows a comparison is [unlock()] when
    the states are equal, the build step when they differ. *)
Definition compare_decides (rebuild_command : option string) (t : list obs)
    : Prop :=
  (∀ i r command, t !! i = Some (OSpawn r command) →
     rebuild_command = Some command ∧ command ≠ "" ∧
     ∃ j rs ps, i = S j ∧ t !! j = Some (OCompare rs ps) ∧ rs ≠ ps) ∧
  (∀ j rs ps, t !! j = Some (OCompare rs ps) →
     if decide (rs = ps) then ∃ r, t !! S j = Some (OUnlock r)
     else ∃ r, (∃ command, t !! S j = Some (OSpawn r command)) ∨
               t !! S j = Some (OBuilt r VNull)).

(** ** One rebuild check at a time *)

Definition is_locked (o : obs) : Prop :=
  match o with
  | OLocked _ => True
  | _ => False
  end.

Definition is_unlock (o : obs) : Prop :=
  match o with
  | OUnlock _ => True
  | _ => False
  end.

#[global] Instance is_locked_dec (o : obs) : Decision (is_locked o).
Proof. destruct o; simpl; apply _. Defined.

#[global] Instance is_unlock_dec (o : obs) : Decision (is_unlock o).
Proof. destruct o; simpl; apply _. Defined.

(** How often an operation was given the lock, and how often [unlock]
    was called. *)
Definition locks (t : list obs) : nat := length (filter is_locked t).
Definition unlocks (t : list obs) : nat := length (filter is_unlock t).

(** The children whose [rebuild] call has not yet called back. *)
Definition building (c : nat) (s : state) : Prop :=
  (signaled <$> children s) !! c = Some false.

(** What the operation that holds the lock, if any, is waiting for:
    nothing ([held = false]), the [fs] calls of one [gatherState] call,
    or one child. *)
Inductive phase (s : state) : bool → Prop :=
| phase_idle :
    stats s = [] → readdirs s = [] →
    (∀ c, ¬ building c s) →
    phase s false
| phase_scan sid :
    stats s ++ readdirs s ≠ [] →
    Forall (λ p, p.1 = sid) (stats s ++ readdirs s) →
    (∀ c, ¬ building c s) →
    phase s true
| phase_build c :
    stats s = [] → readdirs s = [] →
    building c s → (∀ c', building c' s → c' = c) →
    phase s true.

Definition exclusive (s : state) : Prop :=
  thrown s = false ∧
  ∃ held,
    phase s held ∧
    locks (trace s) = (unlocks (trace s) + if held then 1 else 0)%nat ∧
    match lock_queue (lockq s) with
    | [] => next_ticks (lockq s) = 0%nat ∧ held = false
    | _ :: _ => next_ticks (lockq s) = if held then 0%nat else 1%nat
    end.

(** [s] seen from the lock, the [fs] calls, the children and the
    counts of the trace is [s0]. *)
Definition same_view (s0 s : state) : Prop :=
  lockq s = lockq s0 ∧ stats s = stats s0 ∧ readdirs s = readdirs s0 ∧
  children s = children s0 ∧ thrown s = thrown s0 ∧
  locks (trace s) = locks (trace s0) ∧
  unlocks (trace s) = unlocks (trace s0).

(** How a chain of callbacks that started in [s0] ends in [s']: with
    [unlock()], with a new [gatherState] call, or with a new child. *)
Inductive continues (root : string) (s0 s' : state) : Prop :=
| cont_finished :
    lockq s' = unlock (lockq s0) → stats s' = stats s0 →
    readdirs s' = readdirs s0 → children s' = children s0 →
    thrown s' = thrown s0 → locks (trace s') = locks (trace s0) →
    unlocks (trace s') = S (unlocks (trace s0)) →
    continues root s0 s'
| cont_rescan sid :
    lockq s' = lockq s0 → stats s' = stats s0 ++ [(sid, root)] →
    readdirs s' = readdirs s0 → children s' = children s0 →
    thrown s' = thrown s0 → locks (trace s') = locks (trace s0) →
    unlocks (trace s') = unlocks (trace s0) →
    continues root s0 s'
| cont_spawned r :
    lockq s' = lockq s0 → stats s' = stats s0 →
    readdirs s' = readdirs s0 → children s' = children s0 ++ [new_child r] →
    thrown s' = thrown s0 → locks (trace s') = locks (trace s0) →
    unlocks (trace s') = unlocks (trace s0) →
    continues root s0 s'.

(** ** [Server]: the listing of a directory *)

(** What the handlers do to [response]. *)
Inductive response_call :=
| WriteHead (status : Z) (headers : list (string * string))
| ResEnd (body : string).

(** [error.toString()]: a string is itself, an [Error] is its name and
    message; [None] is the TypeError of [null.toString()]. *)
Definition toString (error : value) : option string :=
  match error with
  | VNull => None
  | VStr s => Some s
  | VError message => Some ("Error: " +:+ message)
  end.

(** [reportError(error, response)] *)
Definition reportError (error : value) : option (list response_call) :=
  text ← toString error;
  Some [ResEnd ("An error occurred: " +:+ text)].

(** The line feed. *)
Definition lf : string :=
  String (Ascii.Ascii false true false true false false false false) "".

(** [files.sort()]: without a [comparefn] strings are ordered as
    [compare] orders them. *)
Definition sort_files (files : list string) : list string :=
  sort compare files.

(** The [(err, files) => {...}] of [serveDirectory], with
    [path.basename(absolute)] given. *)
Definition serveDirectory (basename relative : string)
    (res : string + list string) : option (list response_call) :=
  match res with
  | inl err => reportError (VError err)
  | inr files =>
      let prefix := if bool_decide (relative = "/") then "" else relative in
      let files := sort_files files in
      Some
      [WriteHead 200 [("Content-Type", "text/html")];
       ResEnd (lf +:+ "          <p><h3>Listing for " +:+ basename +:+
            "</h3></p>" +:+ lf +:+ "          " +:+
            js_join ("<br/>" +:+ lf)
              ((λ f, "<a href='" +:+ (prefix +:+ "/" +:+ f) +:+ "'>" +:+ f +:+
                     "</a>") <$> files) +:+
            lf +:+ "        ")]
  end.

(** ** The baseline and the array it shares *)

(** The array the last [this.disk_state = results] of a trace assigned,
    as it was then; [[]] before the first one. *)
Definition last_stored (t : list obs) : list entry :=
  foldl (λ rs o, match o with OStore _ rs' => rs' | _ => rs end) [] t.

Definition is_store (o : obs) : Prop :=
  match o with
  | OStore _ _ => True
  | _ => False
  end.

(** [this.disk_state] is the array of a [gatherState] call that has
    called back, and that array is as it was when it was assigned. *)
Definition baseline_inv (s : state) : Prop :=
  match disk_state s with
  | RInit => last_stored (trace s) = []
  | RResults sid =>
      ∃ g, gathers s !! sid = Some g ∧
           last_stored (trace s) = results g ∧
           StronglySorted entry_le (results g) ∧
           (0 < calls sid (trace s))%nat
  end.

(** [s] is [s0] but for what does not concern the baseline. *)
Definition untouched (s0 s : state) : Prop :=
  disk_state s = disk_state s0 ∧
  last_stored (trace s) = last_stored (trace s0) ∧
  (∀ sid, (calls sid (trace s0) ≤ calls sid (trace s))%nat) ∧
  (∀ sid g, gathers s0 !! sid = Some g → gathers s !! sid = Some g).

(** ** Requests and their answers *)

(** The requests whose callback was called, in the order of the calls. *)
Definition answered (t : list obs) : list nat :=
  omap (λ o, match o with ODone r _ => Some r | _ => None end) t.

(** The requests of a run, in the order of their arrival. *)
Definition requested (es : list event) : list nat :=
  omap (λ e, match e with Request r => Some r | _ => None end) es.

Definition is_done (o : obs) : Prop :=
  match o with
  | ODone _ _ => True
  | _ => False
  end.

(** Every [fs] call in flight and every child that has not reported
    back works for the request at the head of the queue. *)
Definition owned (s : state) : Prop :=
  (∀ p g, p ∈ stats s ++ readdirs s → gathers s !! p.1 = Some g →
          head (lock_queue (lockq s)) = Some (request_of (callback g))) ∧
  (∀ c ch, children s !! c = Some ch → signaled ch = false →
           head (lock_queue (lockq s)) = Some (child_cb ch)).

(** [s] is [s0] as far as the queue, the answers and the pending work
    are concerned. *)
Definition same_requests (s0 s : state) : Prop :=
  lockq s = lockq s0 ∧ answered (trace s) = answered (trace s0) ∧
  stats s = stats s0 ∧ readdirs s = readdirs s0 ∧
  children s = children s0.

(** The callbacks of the closures in [l'] are those they have in [l]. *)
Definition keeps_callbacks (l l' : list gather) : Prop :=
  ∀ sid g', l' !! sid = Some g' →
            ∃ g, l !! sid = Some g ∧ callback g = callback g'.

(** How a chain of callbacks working for request [h] ends: the request
    is answered, or a [gatherState] call or a child works on for it. *)
Inductive outcome (root : string) (h : nat) (s0 s' : state) : Prop :=
| out_finished :
    lockq s' = unlock (lockq s0) →
    answered (trace s') = answered (trace s0) ++ [h] →
    outcome root h s0 s'
| out_rescan sid g :
    lockq s' = lockq s0 → answered (trace s') = answered (trace s0) →
    stats s' = stats s0 ++ [(sid, root)] →
    gathers s' !! sid = Some g → request_of (callback g) = h →
    outcome root h s0 s'
| out_spawned :
    lockq s' = lockq s0 → answered (trace s') = answered (trace s0) →
    children s' = children s0 ++ [new_child h] →
    outcome root h s0 s'.

(** * Properties *)

(** ** The order on paths *)

Lemma ascii_compare_refl (c : Ascii.ascii) : Ascii.compare c c = Eq.
Proof. apply N.compare_refl. Qed.

Lemma ascii_compare_lt_trans (a b c : Ascii.ascii) :
  Ascii.compare a b = Lt → Ascii.compare b c = Lt → Ascii.compare a c = Lt.
Proof.
  unfold Ascii.compare. rewrite !N.compare_lt_iff. apply N.lt_trans.
Qed.

Lemma string_compare_refl (s : string) : String.compare s s = Eq.
Proof.
  induction s as [|c s IH]; simpl; [done|].
  by rewrite ascii_compare_refl.
Qed.

Lemma string_compare_lt_trans (a b c : string) :
  String.compare a b = Lt → String.compare b c = Lt → String.compare a c = Lt.
Proof.
  revert b c. induction a as [|x a IH]; intros [|y b] [|z c]; simpl; try done.
  destruct (Ascii.compare x y) eqn:Hxy; try done.
  - apply Ascii.compare_eq_iff in Hxy as ->.
    destruct (Ascii.compare y z); try done. apply IH.
  - destruct (Ascii.compare y z) eqn:Hyz; try done.
    + apply Ascii.compare_eq_iff in Hyz as <-. by rewrite Hxy.
    + by rewrite (ascii_compare_lt_trans x y z).
Qed.

Lemma js_lt_irrefl (a : string) : js_lt a a = false.
Proof. unfold js_lt, String.ltb. by rewrite string_compare_refl. Qed.

Lemma js_lt_trans (a b c : string) :
  js_lt a b = true → js_lt b c = true → js_lt a c = true.
Proof.
  unfold js_lt, String.ltb. intros Hab Hbc.
  destruct (String.compare a b) eqn:H1; try done.
  destruct (String.compare b c) eqn:H2; try done.
  by rewrite (string_compare_lt_trans a b c).
Qed.

Lemma js_lt_trichotomy (a b : string) :
  js_lt a b = true ∨ a = b ∨ js_lt b a = true.
Proof.
  unfold js_lt, String.ltb. rewrite (String.compare_antisym b a).
  destruct (String.compare a b) eqn:H; simpl; auto.
  apply String.compare_eq_iff in H. auto.
Qed.

Lemma js_lt_asym (a b : string) : js_lt a b = true → js_lt b a = false.
Proof.
  unfold js_lt, String.ltb. rewrite (String.compare_antisym b a).
  by destruct (String.compare a b).
Qed.

Lemma path_le_iff (a b : string) : path_le a b ↔ js_lt b a = false.
Proof.
  unfold path_le, compare. split.
  - destruct (js_lt a b) eqn:Hab; [intros _; by apply js_lt_asym|].
    destruct (js_lt b a); [lia|done].
  - intros ->. destruct (js_lt a b); lia.
Qed.

Lemma path_le_refl (a : string) : path_le a a.
Proof. apply path_le_iff, js_lt_irrefl. Qed.

Lemma path_le_total (a b : string) : path_le a b ∨ path_le b a.
Proof.
  rewrite !path_le_iff.
  destruct (js_lt b a) eqn:H; [right; by apply js_lt_asym | by left].
Qed.

Lemma path_le_antisym (a b : string) : path_le a b → path_le b a → a = b.
Proof.
  rewrite !path_le_iff. intros H1 H2.
  destruct (js_lt_trichotomy a b) as [H|[H|H]]; congruence.
Qed.

Lemma path_le_trans (a b c : string) :
  path_le a b → path_le b c → path_le a c.
Proof.
  rewrite !path_le_iff. intros Hab Hbc.
  destruct (js_lt c a) eqn:Hca; [|done].
  destruct (js_lt_trichotomy a b) as [H|[->|H]]; [|congruence..].
  rewrite (js_lt_trans c a b Hca H) in Hbc. done.
Qed.

(** ** [sort] *)

Lemma sort_insert_perm {A} (f : A → A → Z) (x : A) (l : list A) :
  sort_insert f x l ≡ₚ x :: l.
Proof.
  induction l as [|y l IH]; simpl; [done|].
  case_bool_decide; [done|]. rewrite IH. apply Permutation_swap.
Qed.

Lemma sort_perm {A} (f : A → A → Z) (l : list A) : sort f l ≡ₚ l.
Proof.
  induction l as [|x l IH]; simpl; [done|].
  by rewrite sort_insert_perm, IH.
Qed.

Lemma sort_insert_sorted (x : entry) (l : list entry) :
  StronglySorted entry_le l →
  StronglySorted entry_le
    (sort_insert (λ a b, compare (path a) (path b)) x l).
Proof.
  induction 1 as [|y l Hl IH Hy]; simpl.
  - repeat constructor.
  - case_bool_decide as Hxy.
    + constructor; [by constructor|]. constructor; [done|].
      eapply List.Forall_impl; [|exact Hy]. intros z Hz.
      eapply path_le_trans; [exact Hxy|exact Hz].
    + constructor; [done|].
      rewrite sort_insert_perm. constructor; [|done].
      destruct (path_le_total (path x) (path y)); done.
Qed.

Lemma sort_results_sorted (l : list entry) :
  StronglySorted entry_le (sort_results l).
Proof.
  induction l as [|x l IH]; simpl; [constructor|].
  by apply sort_insert_sorted.
Qed.

(** ** [equalsState] *)

Lemma equalsState_loop_decide (a b : list entry) (n i : nat) :
  (i + n = length a)%nat → length a = length b →
  equalsState_loop a b i n = Some (bool_decide (drop i a = drop i b)).
Proof.
  revert i. induction n as [|n IH]; intros i Hi Hlen; simpl.
  - rewrite !drop_ge by lia. by rewrite bool_decide_eq_true_2.
  - destruct (lookup_lt_is_Some_2 a i) as [x Hx]; [lia|].
    destruct (lookup_lt_is_Some_2 b i) as [y Hy]; [lia|].
    rewrite Hx, Hy.
    rewrite (drop_S a x i Hx), (drop_S b y i Hy).
    destruct x as [px mx], y as [py my]; simpl.
    case_bool_decide as Hp.
    { rewrite bool_decide_eq_false_2; [done|]. intros ?; simplify_eq. }
    subst py.
    case_bool_decide as Hm.
    { rewrite bool_decide_eq_false_2; [done|]. intros ?; simplify_eq. }
    subst my.
    rewrite IH by lia. f_equal. apply bool_decide_ext.
    split; [by intros ->|]. intros ?; by simplify_eq.
Qed.

Lemma equalsState_decide (a b : list entry) :
  equalsState (Some a) (Some b) = Some (bool_decide (a = b)).
Proof.
  unfold equalsState. case_bool_decide as Hlen.
  - rewrite bool_decide_eq_false_2; [done|]. by intros ->.
  - by rewrite equalsState_loop_decide.
Qed.

(** ** [LockQueue] under its contract *)

Lemma remove_first_subseteq (cb : nat) (l : list nat) :
  remove_first cb l ⊆ l.
Proof.
  induction l as [|x l IH]; simpl; [done|]. intros y.
  case_bool_decide; rewrite !elem_of_cons; [by right|].
  intros [->|Hy]; [by left|right; by apply IH].
Qed.

Lemma lock_inv_initial : lock_inv lock_initial.
Proof. split; [done|]. exists []. split_and!; [done..|]. by left. Qed.

Lemma lock_inv_step (st : lock_state) (e : lock_event) :
  lock_allowed st e = true → lock_inv st → lock_inv (lock_step st e).
Proof.
  unfold lock_allowed. intros [Hth Hal]%andb_prop (_ & fin & Harr & Hst & Hq).
  destruct st as [[q n] arr sta rn th]; simpl in *.
  apply negb_true_iff in Hth. subst th.
  destruct e as [cb| |cb]; simpl.
  - (* lock(cb) *)
    split; [done|]. unfold lock; simpl.
    destruct Hq as [[-> Hn]|(h & t & -> & -> & ->)].
    + destruct q as [|h t]; simpl in *; subst n.
      * exists fin. subst arr. rewrite !app_nil_r in *.
        split_and!; [done..|]. by left.
      * rewrite bool_decide_eq_false_2 by (rewrite length_app; simpl; lia).
        exists fin. subst arr. simpl.
        split_and!; [by rewrite <- app_assoc|done|]. by left.
    + rewrite bool_decide_eq_false_2 by (simpl; rewrite length_app; simpl; lia).
      exists fin. subst arr. simpl.
      split_and!; [by rewrite <- app_assoc|done|].
      right. by exists h, (t ++ [cb]).
  - (* a tick *)
    apply bool_decide_eq_true_1 in Hal.
    destruct Hq as [[-> Hn]|(h & t & _ & _ & ->)]; [|lia].
    destruct q as [|h t]; simpl in *; [lia|]. subst n. simpl.
    split; [done|]. exists fin. simpl. rewrite app_nil_r in Hst. subst sta.
    split_and!; [done..|]. right. by exists h, t.
  - (* unlock() by cb *)
    apply bool_decide_eq_true_1 in Hal.
    destruct Hq as [[-> _]|(h & t & -> & -> & ->)];
      [by apply elem_of_nil in Hal|].
    apply list_elem_of_singleton in Hal as ->.
    split; [done|]. unfold unlock; simpl.
    rewrite (bool_decide_eq_true_2 (h = h)) by done.
    exists (fin ++ [h]). rewrite <- !app_assoc, app_nil_r. subst arr sta.
    destruct t as [|h' t]; simpl; (split_and!; [done..|]; by left).
Qed.

Lemma lock_inv_run (es : list lock_event) (st : lock_state) :
  disciplined st es = true → lock_inv st → lock_inv (lock_run st es).
Proof.
  revert st. induction es as [|e es IH]; intros st; simpl; [done|].
  intros [Hal Hes]%andb_prop Hinv. apply IH; [done|].
  by apply lock_inv_step.
Qed.

(** ** The trace of [Rebuilder], one event at a time *)

Section RebuilderTrace.
Variable root : string.
Variable rebuild_command : option string.
Variable path_join : string → string → string.

#[local] Abbreviation step := (step root rebuild_command path_join).
#[local] Abbreviation run := (run root rebuild_command path_join).

Lemma foldl_walk_frame (sid : nat) (p : string) (files : list string)
    (s : state) :
  let s' := foldl (λ s f, walk sid (path_join p f) s) s files in
  trace s' = trace s ∧ children s' = children s ∧
  disk_state s' = disk_state s ∧ lockq s' = lockq s ∧
  thrown s' = thrown s ∧ length (gathers s') = length (gathers s).
Proof.
  revert s. induction files as [|f files IH]; intros s; simpl; [done|].
  destruct (IH (walk sid (path_join p f) s)) as (-> & -> & -> & -> & -> & ->).
  simpl. by rewrite length_alter.
Qed.

Lemma finish_trace (r : nat) (err : value) (s : state) :
  trace (finish r err s) = trace s ++ [OUnlock r; ODone r err].
Proof. simpl. by rewrite <- app_assoc. Qed.

Lemma built_cb_trace (r : nat) (err : value) (s : state) :
  trace (built_cb root r err s) =
  trace s ++ (if truthy err then [OBuilt r err; OUnlock r; ODone r err]
              else [OBuilt r err]).
Proof.
  unfold built_cb. destruct (truthy err); simpl; [|done].
  by rewrite <- !app_assoc.
Qed.

Lemma rebuild_trace (r : nat) (s : state) :
  ∃ d, trace (rebuild root rebuild_command r s) = trace s ++ d ∧
       rebuild_obs rebuild_command r d.
Proof.
  unfold rebuild. destruct rebuild_command as [command|] eqn:Hc.
  - case_bool_decide as He.
    + exists [OBuilt r VNull]. split; [by rewrite built_cb_trace|].
      constructor. unfold no_command. by rewrite bool_decide_eq_true_2.
    + exists [OSpawn r command]. split; [done|]. by econstructor.
  - exists [OBuilt r VNull]. split; [by rewrite built_cb_trace|].
    by constructor.
Qed.

Lemma gather_callback_trace (sid : nat) (err : value) (s : state)
    (g : gather) :
  gathers s !! sid = Some g →
  ∃ d, trace (gather_callback root rebuild_command sid err s) =
         trace s ++ OGather sid (callback g) err (results g) :: d ∧
       gather_obs rebuild_command err (results g) (callback g) d.
Proof.
  intros Hg. unfold gather_callback. rewrite Hg.
  destruct (callback g) as [r|r]; destruct (truthy err) eqn:Herr.
  - eexists. split; [|by apply gather_scan_failed].
    rewrite finish_trace. simpl. by rewrite <- app_assoc.
  - rewrite equalsState_decide. case_bool_decide as Heq.
    + eexists. split; [|by apply (gather_scan_equal _ _ _ r _ Herr Heq)].
      rewrite finish_trace. simpl. by rewrite <- !app_assoc.
    + edestruct rebuild_trace as (d & -> & Hd).
      eexists. split; [|by apply (gather_scan_differs _ _ _ r _ d Herr Heq)].
      simpl. by rewrite <- !app_assoc.
  - eexists. split; [|by apply gather_resync_failed].
    rewrite finish_trace. simpl. by rewrite <- app_assoc.
  - eexists. split; [|by apply gather_resync_ok].
    rewrite finish_trace. simpl. by rewrite <- !app_assoc.
Qed.

Lemma done_trace (sid : nat) (s s0 : state) :
  ∃ d, trace (done root rebuild_command sid s) = trace s ++ d ∧
       step_obs rebuild_command s0 d.
Proof.
  unfold done. case_bool_decide as He.
  2:{ exists []. split; [by rewrite app_nil_r|constructor]. }
  match goal with |- context [gather_callback _ _ _ _ ?s1] =>
    destruct (gathers s1 !! sid) as [g|] eqn:Hg end.
  - destruct (gather_callback_trace sid VNull _ g Hg) as (d & -> & Hd).
    eexists. split; [done|]. apply step_gather; [|done]. left. split; [done|].
    simpl in Hg. rewrite list_lookup_alter, decide_True in Hg by done.
    destruct (alter _ sid (gathers s) !! sid) as [g'|]; simplify_eq/=.
    apply sort_results_sorted.
  - unfold gather_callback. rewrite Hg.
    exists []. split; [by rewrite app_nil_r|constructor].
Qed.

Lemma error_trace (sid : nat) (e : string) (s s0 : state) :
  ∃ d, trace (error root rebuild_command sid (VError e) s) = trace s ++ d ∧
       step_obs rebuild_command s0 d.
Proof.
  unfold error.
  match goal with |- context [gather_callback _ _ _ _ ?s1] =>
    destruct (gathers s1 !! sid) as [g|] eqn:Hg end.
  - destruct (gather_callback_trace sid (VError e) _ g Hg) as (d & -> & Hd).
    eexists. split; [done|]. apply step_gather; [|done]. right. by exists e.
  - unfold gather_callback. rewrite Hg.
    exists []. split; [by rewrite app_nil_r|constructor].
Qed.

Lemma step_trace (s s' : state) (e : event) :
  step s e = Some s' →
  ∃ d, trace s' = trace s ++ d ∧ step_obs rebuild_command s d.
Proof.
  unfold step. destruct (thrown s); [done|].
  destruct e as [r| |i res|i res|c ce];
    destruct (next_ticks (lockq s)) as [|n] eqn:Hn; try done.
  - (* a request *)
    intros [= <-]. exists []. split; [by rewrite app_nil_r|constructor].
  - (* a tick *)
    intros [= <-]. unfold dispatch_tick. simpl.
    destruct (_dispatch _) as [r|]; simpl.
    + exists [OLocked r]. split; [done|constructor].
    + exists []. split; [by rewrite app_nil_r|constructor].
  - (* fs.stat calls back *)
    destruct (stats s !! i) as [[sid p]|]; [|done]. simpl. intros [= <-].
    unfold stat_callback. destruct res as [err|[mt [|]]].
    + destruct (error_trace sid err (set_stats (delete i (stats s)) s) s)
        as (d & Hd & Hs).
      exists d. split; [exact Hd|exact Hs].
    + exists []. split; [by rewrite app_nil_r|constructor].
    + match goal with |- context [done _ _ _ ?s1] =>
        destruct (done_trace sid s1 s) as (d & Hd & Hs) end.
      exists d. split; [exact Hd|exact Hs].
  - (* fs.readdir calls back *)
    destruct (readdirs s !! i) as [[sid p]|]; [|done]. simpl. intros [= <-].
    unfold readdir_callback. destruct res as [err|files].
    + destruct (error_trace sid err (set_readdirs (delete i (readdirs s)) s) s)
        as (d & Hd & Hs).
      exists d. split; [exact Hd|exact Hs].
    + match goal with |- context [done _ _ _ ?s1] =>
        destruct (done_trace sid s1 s) as (d & Hd & Hs) end.
      exists d. split; [|exact Hs]. rewrite Hd.
      by destruct (foldl_walk_frame sid p files
                     (set_readdirs (delete i (readdirs s)) s)) as [-> _].
  - (* an event on a child *)
    destruct (children s !! c) as [ch|] eqn:Hch; [|done]. simpl.
    intros [= <-]. unfold child_event_callback. rewrite Hch.
    assert (children s ≠ []) as Hne by (by intros Hnil; rewrite Hnil in Hch).
    destruct (child_handler ch ce) as [ch' [err|]] eqn:Hh.
    + rewrite built_cb_trace. simpl. destruct (truthy err) eqn:Herr.
      * eexists. split; [done|]. by apply step_built_failed.
      * eexists. split; [done|]. by apply step_built_ok.
    + exists []. split; [by rewrite app_nil_r|constructor].
Qed.

(** An invariant of every turn holds wherever a run arrives. *)
Lemma run_invariant (I : state → Prop) :
  (∀ s e s', I s → step s e = Some s' → I s') →
  ∀ es s s', I s → run s es = Some s' → I s'.
Proof.
  intros Hstep. induction es as [|e es IH]; intros s s' Hs; simpl.
  - by intros [= <-].
  - destruct (step s e) as [s1|] eqn:He; [|done]. simpl. eauto.
Qed.
End RebuilderTrace.

(** ** [rebuild]: the handlers on the child *)

Lemma child_callbacks_signaled (ch : child) (es : list child_event) :
  signaled ch = true → child_callbacks ch es = [].
Proof.
  revert ch. induction es as [|e es IH]; intros ch Hs; simpl; [done|].
  destruct e as [data|err|code signal]; simpl; rewrite ?Hs; by apply IH.
Qed.

Lemma child_callbacks_data (ch : child) (chunks : list string)
    (es : list child_event) :
  child_callbacks ch ((Data <$> chunks) ++ es) =
  child_callbacks
    (Child (foldl (λ out data, out +:+ data) (output ch) chunks)
       (signaled ch) (child_cb ch)) es.
Proof.
  revert ch. induction chunks as [|data chunks IH]; intros ch; simpl.
  - by destruct ch.
  - by rewrite IH.
Qed.

(** * The specification, statement by statement *)

(** ** C5 *)

(** C5: on two arrays, [equalsState] returns (it does not throw), and it
    returns [true] exactly when the arrays have the same length and, at
    every index, entries with the same [path] and the same [mtime]; it
    returns [false] whenever the lengths differ. *)
Theorem C5_equalsState_iff_pairwise_equal (a b : list entry) :
  (equalsState (Some a) (Some b) = Some true ↔
     length a = length b ∧
     ∀ i x y, a !! i = Some x → b !! i = Some y →
              path x = path y ∧ mtime x = mtime y) ∧
  (∃ res, equalsState (Some a) (Some b) = Some res) ∧
  (length a ≠ length b → equalsState (Some a) (Some b) = Some false).
Proof.
  rewrite equalsState_decide. split_and!.
  - split.
    + intros [= Heq%bool_decide_eq_true_1]. subst b. split; [done|].
      intros i x y Hx Hy. by simplify_eq.
    + intros [Hlen Hall]. f_equal. apply bool_decide_eq_true_2.
      apply list_eq_same_length with (length a); [done..|].
      intros i x y _ Hx Hy. destruct (Hall i x y Hx Hy) as [Hp Hm].
      destruct x, y; simpl in *; by subst.
  - by eexists.
  - intros Hlen. f_equal. apply bool_decide_eq_false_2. by intros ->.
Qed.

(** ** C8 *)

(** C8: [equalsState] gives the same answer with its arguments swapped
    (also when one of them is [null]), and on an array and itself it
    returns [true]. *)
Theorem C8_equalsState_symmetric_reflexive :
  (∀ a b : option (list entry), equalsState a b = equalsState b a) ∧
  (∀ a : list entry, equalsState (Some a) (Some a) = Some true).
Proof.
  split.
  - intros [a|] [b|]; try done. rewrite !equalsState_decide. f_equal.
    apply bool_decide_ext. split; by intros ->.
  - intros a. rewrite equalsState_decide. by rewrite bool_decide_eq_true_2.
Qed.

(** ** C7 *)

(** C7 (as amended): while every operation calls the [unlock] it was
    given once, and only while it holds the lock, at most one operation
    runs at any time, [_dispatch] always finds an item, and the
    operations were started in the order in which they were given to
    [lock]; and no call of [lock] or [unlock] starts an operation
    itself: [lock] schedules a tick when the queue was empty, [unlock]
    when the queue is not empty after the shift, and only a tick starts
    an operation. *)
Theorem C7_lock_queue_exclusive_fifo_deferred (es : list lock_event) :
  disciplined lock_initial es = true →
  let st := lock_run lock_initial es in
  (length (running st) ≤ 1)%nat ∧
  lthrown st = false ∧
  started st `prefix_of` arrived st ∧
  (∀ e, e ≠ LTick →
        started (lock_step st e) = started st ∧
        running (lock_step st e) ⊆ running st) ∧
  (∀ cb, next_ticks (lq (lock_step st (LLock cb))) =
         if lock_queue (lq st) is [] then S (next_ticks (lq st))
         else next_ticks (lq st)) ∧
  (∀ cb, next_ticks (lq (lock_step st (LUnlock cb))) =
         if tail (lock_queue (lq st)) is [] then next_ticks (lq st)
         else S (next_ticks (lq st))).
Proof.
  intros Hd st.
  destruct (lock_inv_run es lock_initial Hd lock_inv_initial)
    as (Hth & fin & Harr & Hst & Hq). fold st in Hth, Harr, Hst, Hq.
  split_and!.
  - destruct Hq as [[-> _]|(h & t & _ & -> & _)]; simpl; lia.
  - done.
  - rewrite Harr, Hst.
    destruct Hq as [[-> _]|(h & t & -> & -> & _)].
    + rewrite app_nil_r. by apply prefix_app_r.
    + apply prefix_app, prefix_cons, prefix_nil.
  - intros [cb| |cb] He; [|done|]; simpl; (split; [done|]); [done|].
    apply remove_first_subseteq.
  - intros cb. simpl. unfold lock. simpl.
    destruct (lock_queue (lq st)) as [|h t]; simpl; [done|].
    rewrite bool_decide_eq_false_2; [done|]. rewrite length_app. simpl. lia.
  - intros cb. simpl. unfold unlock. simpl.
    by destruct (tail (lock_queue (lq st))).
Qed.

Lemma C7_lock_queue_witness :
  let es := [LLock 1; LLock 2; LTick; LUnlock 1; LTick; LLock 3; LUnlock 2;
             LTick] in
  disciplined lock_initial es = true ∧
  started (lock_run lock_initial es) = [1; 2; 3]%nat ∧
  (length (running (lock_run lock_initial es)) ≤ 1)%nat.
Proof.
  split; [reflexivity|]. split; [reflexivity|].
  apply (C7_lock_queue_exclusive_fifo_deferred
           [LLock 1; LLock 2; LTick; LUnlock 1; LTick; LLock 3; LUnlock 2;
            LTick]).
  reflexivity.
Defined.

(** An operation that calls [unlock] a second time takes the next
    operation off the queue.  In the first run operation 0 does so after
    operation 1 was started: operation 2 is started while 1 still runs.
    In the second it does so at once: operation 1 is never started and
    operation 2 is started twice. *)
Lemma C7_second_unlock_counterexample :
  running (lock_run lock_initial
             [LLock 0; LTick; LLock 1; LUnlock 0; LTick; LUnlock 0;
              LLock 2; LTick]) = [1; 2]%nat ∧
  arrived (lock_run lock_initial
             [LLock 0; LLock 1; LLock 2; LTick; LUnlock 0; LUnlock 0;
              LTick; LTick]) = [0; 1; 2]%nat ∧
  started (lock_run lock_initial
             [LLock 0; LLock 1; LLock 2; LTick; LUnlock 0; LUnlock 0;
              LTick; LTick]) = [0; 2; 2]%nat.
Proof. by split_and!. Qed.

(** ** C4 *)

(** C4: a [rebuild] call that started a child calls its callback exactly
    once, at the first ["error"] or ["exit"] the child reports (and not
    before).  The argument is not [null] (a failure) exactly when that
    event is an error, an exit with a non-zero code, or an exit by a
    signal; otherwise it is [null] (success).  After an error it is the
    error, and after a failed exit it is the output gathered so far. *)
Theorem C4_rebuild_classifies_outcome (r : nat) (chunks : list string)
    (e : child_event) (rest : list child_event) :
  (∀ d, e ≠ Data d) →
  (∀ code sg, e = Exit code (Some sg) → sg ≠ "") →
  child_callbacks (new_child r) (Data <$> chunks) = [] ∧
  ∃ v, child_callbacks (new_child r) ((Data <$> chunks) ++ e :: rest) = [v] ∧
       (v ≠ VNull ↔
          (∃ err, e = Error err) ∨
          (∃ code signal, e = Exit code signal ∧
             ((∃ n, code = Some n ∧ n ≠ 0) ∨ (∃ sg, signal = Some sg)))) ∧
       (∀ err, e = Error err → v = VError err) ∧
       (∀ code signal, e = Exit code signal → v ≠ VNull →
          v = VStr (combined_output chunks)).
Proof.
  intros Hdata Hsg. split.
  { rewrite <- (app_nil_r (Data <$> chunks)). by rewrite child_callbacks_data. }
  rewrite child_callbacks_data. simpl.
  destruct e as [d|err|code signal]; [by destruct (Hdata d)|..]; simpl.
  - rewrite child_callbacks_signaled by done.
    exists (VError err). split_and!; [done| |by intros ? [= <-]|done].
    split; [intros _; left; by eexists|done].
  - rewrite child_callbacks_signaled by done.
    eexists. split; [done|]. unfold code_or_signal, combined_output.
    destruct code as [n|], signal as [sg|]; simpl;
      repeat case_bool_decide; simpl;
      try (specialize (Hsg _ _ eq_refl)); try done;
      (split_and!; [|done|try done]);
      first [ split; [intros _; right; do 2 eexists; split; [done|]; eauto|done]
            | split; [done|];
              intros [[? [=]]|(? & ? & [= <- <-] & [(? & [= <-] & ?)|[? [=]]])];
              done ].
Qed.

Lemma C4_rebuild_witness :
  ∃ v, child_callbacks (new_child 0)
         ((Data <$> ["npm ERR! "; "missing script: build"]) ++
          Exit (Some 1) None :: [Error "kill EPERM"]) = [v] ∧
       v = VStr "npm ERR! missing script: build".
Proof.
  destruct (C4_rebuild_classifies_outcome 0
              ["npm ERR! "; "missing script: build"] (Exit (Some 1) None)
              [Error "kill EPERM"]) as (_ & v & Hv & Hfail & _ & Hout).
  - done.
  - done.
  - exists v. split; [exact Hv|]. apply (Hout (Some 1) None eq_refl).
    apply Hfail. right. exists (Some 1), None. split; [done|]. left.
    by exists 1.
Defined.

(** ** C6 *)

Lemma step_obs_sorted (rebuild_command : option string) (s : state)
    (d : list obs) :
  step_obs rebuild_command s d → Forall obs_sorted d.
Proof.
  destruct 1 as [|r|sid cb err rs d [[-> Hrs]|[e ->]] Hd|r err|r err];
    repeat constructor; try done.
  - inversion Hd as [| | ? ? ? ? ? Hr | |]; subst; repeat constructor; try done.
    inversion Hr; subst; by repeat constructor.
  - inversion Hd; subst; by repeat constructor.
Qed.

Lemma path_le_leb (a b : string) : path_le a b ↔ String.leb a b = true.
Proof.
  rewrite path_le_iff. unfold js_lt, String.ltb, String.leb.
  rewrite (String.compare_antisym a b). by destruct (String.compare b a).
Qed.

(** C6: in every run, each array a scan hands to its callback with a
    [null] error, each array given to [equalsState] as the new state and
    each array stored in [this.disk_state] is sorted ascending by path.
    The order is the code-unit order of the strings, a total order, and
    [sort_results] itself establishes it on any array, keeping its
    elements. *)
Theorem C6_scan_results_sorted (root : string)
    (rebuild_command : option string)
    (path_join : string → string → string) (es : list event) (s : state) :
  run root rebuild_command path_join initial es = Some s →
  Forall obs_sorted (trace s) ∧
  (∀ a b, path_le a b ↔ String.leb a b = true) ∧
  (∀ a b, path_le a b ∨ path_le b a) ∧
  (∀ a b, path_le a b → path_le b a → a = b) ∧
  (∀ a b c, path_le a b → path_le b c → path_le a c) ∧
  (∀ l, StronglySorted entry_le (sort_results l) ∧ sort_results l ≡ₚ l).
Proof.
  intros Hrun. split_and!.
  - revert Hrun.
    apply (run_invariant root rebuild_command path_join
             (λ s, Forall obs_sorted (trace s))); [|constructor].
    intros s1 e s2 Hinv Hstep.
    destruct (step_trace _ _ _ _ _ _ Hstep) as (d & -> & Hd).
    apply Forall_app. split; [done|]. by eapply step_obs_sorted.
  - apply path_le_leb.
  - apply path_le_total.
  - apply path_le_antisym.
  - apply path_le_trans.
  - intros l. split; [apply sort_results_sorted|apply sort_perm].
Qed.

Lemma C6_scan_results_sorted_witness :
  ∃ s, run "/srv" None posix_join initial
         [Request 0; Tick; StatDone 0 (inr (ms 5, true));
          ReaddirDone 0 (inr ["b"; "a"]); StatDone 0 (inr (ms 7, false));
          StatDone 0 (inr (ms 6, false))] = Some s ∧
       OGather 0 (ScanCb 0) VNull
         [Entry "/srv" (ms 5); Entry "/srv/a" (ms 6); Entry "/srv/b" (ms 7)]
         ∈ trace s ∧
       Forall obs_sorted (trace s).
Proof.
  eexists. split; [vm_compute; reflexivity|]. split.
  - apply elem_of_cons. right. apply elem_of_cons. by left.
  - apply (C6_scan_results_sorted "/srv" None posix_join
             [Request 0; Tick; StatDone 0 (inr (ms 5, true));
              ReaddirDone 0 (inr ["b"; "a"]); StatDone 0 (inr (ms 7, false));
              StatDone 0 (inr (ms 6, false))]).
    vm_compute; reflexivity.
Defined.

(** ** C9 *)

(** Membership in a list that is written out. *)
Ltac crush_mem :=
  repeat match goal with
  | H : _ ∈ [] |- _ => by apply elem_of_nil in H
  | H : _ ∈ _ :: _ |- _ => apply elem_of_cons in H as [H|H]
  end; simplify_eq.

Ltac in_list :=
  solve [repeat first [apply list_elem_of_here | apply list_elem_of_further]].

Section NoCommand.
Variable root : string.
Variable rebuild_command : option string.
Variable path_join : string → string → string.
Hypothesis Hno : no_command rebuild_command = true.

Lemma rebuild_no_command (r : nat) (s : state) :
  rebuild root rebuild_command r s = built_cb root r VNull s.
Proof.
  unfold rebuild, no_command in *. destruct rebuild_command; [|done].
  by rewrite Hno.
Qed.

Lemma gather_callback_children (sid : nat) (err : value) (s : state) :
  children (gather_callback root rebuild_command sid err s) = children s.
Proof.
  unfold gather_callback. destruct (gathers s !! sid) as [g|]; [|done].
  destruct (callback g) as [r|r]; destruct (truthy err); try done.
  rewrite equalsState_decide. case_bool_decide; [done|].
  by rewrite rebuild_no_command.
Qed.

Lemma done_children (sid : nat) (s : state) :
  children (done root rebuild_command sid s) = children s.
Proof.
  unfold done. case_bool_decide; [|done]. by rewrite gather_callback_children.
Qed.

Lemma error_children (sid : nat) (err : value) (s : state) :
  children (error root rebuild_command sid err s) = children s.
Proof. unfold error. by rewrite gather_callback_children. Qed.

Lemma step_children (s s' : state) (e : event) :
  step root rebuild_command path_join s e = Some s' →
  children s = [] → children s' = [].
Proof.
  unfold step. destruct (thrown s); [done|]. intros Hstep Hnil.
  destruct e as [r| |i res|i res|c ce];
    destruct (next_ticks (lockq s)) as [|n]; try done.
  - by simplify_eq/=.
  - simplify_eq/=. unfold dispatch_tick. by destruct (_dispatch _).
  - destruct (stats s !! i) as [[sid p]|]; [|done]. simplify_eq/=.
    unfold stat_callback. destruct res as [err|[mt [|]]];
      by rewrite ?error_children, ?done_children.
  - destruct (readdirs s !! i) as [[sid p]|]; [|done]. simplify_eq/=.
    unfold readdir_callback. destruct res as [err|files].
    + by rewrite error_children.
    + rewrite done_children.
      by destruct (foldl_walk_frame path_join sid p files
           (set_readdirs (delete i (readdirs s)) s)) as (_ & -> & _).
  - by rewrite Hnil in Hstep.
Qed.

Lemma done_as_scanned_app (t d : list obs) :
  done_as_scanned t → done_as_scanned d → done_as_scanned (t ++ d).
Proof.
  intros (Hs1 & Hd1 & Hr1 & Hc1) (Hs2 & Hd2 & Hr2 & Hc2). split_and!.
  - intros r command [?|?]%elem_of_app; [by eapply Hs1|by eapply Hs2].
  - intros r v [Hin|Hin]%elem_of_app.
    + destruct (Hd1 r v Hin) as (sid & cb & rs & Hcb & Hg).
      exists sid, cb, rs. split; [done|]. apply elem_of_app. by left.
    + destruct (Hd2 r v Hin) as (sid & cb & rs & Hcb & Hg).
      exists sid, cb, rs. split; [done|]. apply elem_of_app. by right.
  - intros sid r v rs [Hin|Hin]%elem_of_app; apply elem_of_app;
      [left; by eapply Hr1|right; by eapply Hr2].
  - intros sid r v rs [Hin|Hin]%elem_of_app.
    + destruct (Hc1 sid r v rs Hin) as [?|[-> ?]];
        [left|right; split; [done|]]; apply elem_of_app; by left.
    + destruct (Hc2 sid r v rs Hin) as [?|[-> ?]];
        [left|right; split; [done|]]; apply elem_of_app; by right.
Qed.

Lemma step_obs_done_as_scanned (s : state) (d : list obs) :
  children s = [] → step_obs rebuild_command s d → done_as_scanned d.
Proof.
  intros Hnil Hd.
  destruct Hd as [|r|sid cb err rs d Herr Hd|r err|r err]; try done.
  - split_and!; repeat intro; crush_mem.
  - split_and!; repeat intro; crush_mem.
  - destruct Hd as [r _|r ps _ _|r ps d Hf _ Hr|r _|r _].
    1,2,4,5: split_and!; repeat intro; crush_mem;
      first [ by eexists _, _, _; split; [|in_list] | in_list | left; in_list ].
    destruct Hr as [_|command Hc Hne].
    + destruct Herr as [[-> _]|[e ->]]; [|done].
      split_and!; repeat intro; crush_mem. right. split; [done|in_list].
    + unfold no_command in Hno. rewrite Hc in Hno.
      by apply bool_decide_eq_true_1 in Hno.
Qed.

Lemma run_no_command (es : list event) (s : state) :
  run root rebuild_command path_join initial es = Some s →
  children s = [] ∧ done_as_scanned (trace s).
Proof.
  apply (run_invariant root rebuild_command path_join
           (λ s, children s = [] ∧ done_as_scanned (trace s))).
  - intros s1 e s2 [Hnil Hq] Hstep. split; [by eapply step_children|].
    destruct (step_trace _ _ _ _ _ _ Hstep) as (d & -> & Hd).
    apply done_as_scanned_app; [done|]. by eapply step_obs_done_as_scanned.
  - split; [done|]. split_and!; repeat intro; simpl in *; crush_mem.
Qed.
End NoCommand.

(** C9 (as amended): with no build command (absent or empty),
    [rebuild] calls its callback with [null] at once and starts no
    child; no run ever starts a child; a request's callback gets an
    error only if a scan of that request reported it, the first scan or
    the rescan that follows the empty build step; and each of these two
    hands what it reports to the request's callback, except that a
    first scan that reports [null] and finds a difference goes on to the
    build step and the rescan.  So the request succeeds whenever its
    scan and its rescan succeed. *)
Theorem C9_no_command_never_spawns (root : string)
    (rebuild_command : option string)
    (path_join : string → string → string) (es : list event) (s : state) :
  no_command rebuild_command = true →
  run root rebuild_command path_join initial es = Some s →
  (∀ r s0, rebuild root rebuild_command r s0 = built_cb root r VNull s0 ∧
           children (rebuild root rebuild_command r s0) = children s0) ∧
  children s = [] ∧
  (∀ r command, OSpawn r command ∉ trace s) ∧
  (∀ r v, ODone r v ∈ trace s →
          ∃ sid cb rs, request_of cb = r ∧ OGather sid cb v rs ∈ trace s) ∧
  (∀ sid r v rs, OGather sid (ResyncCb r) v rs ∈ trace s →
                 ODone r v ∈ trace s) ∧
  (∀ sid r v rs, OGather sid (ScanCb r) v rs ∈ trace s →
                 ODone r v ∈ trace s ∨ (v = VNull ∧ OBuilt r VNull ∈ trace s)).
Proof.
  intros Hno Hrun.
  destruct (run_no_command root rebuild_command path_join Hno es s Hrun)
    as (Hnil & Hspawn & Hdone & Hresync & Hscan).
  split_and!; [|done..].
  intros r s0. rewrite rebuild_no_command by done. split; [done|].
  unfold built_cb. by destruct (truthy VNull).
Qed.

Lemma C9_no_command_witness :
  ∃ s, run "/srv" None posix_join initial
         [Request 0; Tick; StatDone 0 (inr (ms 5, false));
          StatDone 0 (inr (ms 5, false)); Request 1; Tick;
          StatDone 0 (inr (ms 5, false))] = Some s ∧
       trace s =
         [OLocked 0;
          OGather 0 (ScanCb 0) VNull [Entry "/srv" (ms 5)];
          OCompare [Entry "/srv" (ms 5)] [];
          OBuilt 0 VNull;
          OGather 1 (ResyncCb 0) VNull [Entry "/srv" (ms 5)];
          OStore 0 [Entry "/srv" (ms 5)];
          OUnlock 0; ODone 0 VNull;
          OLocked 1;
          OGather 2 (ScanCb 1) VNull [Entry "/srv" (ms 5)];
          OCompare [Entry "/srv" (ms 5)] [Entry "/srv" (ms 5)];
          OUnlock 1; ODone 1 VNull] ∧
       children s = [].
Proof.
  eexists. split; [vm_compute; reflexivity|]. split; [reflexivity|].
  apply (C9_no_command_never_spawns "/srv" None posix_join
           [Request 0; Tick; StatDone 0 (inr (ms 5, false));
            StatDone 0 (inr (ms 5, false)); Request 1; Tick;
            StatDone 0 (inr (ms 5, false))]).
  - reflexivity.
  - vm_compute; reflexivity.
Defined.

(** With no build command, the first scan of request 0 succeeds and
    differs from the empty baseline, the empty build step succeeds, the
    rescan fails: the request's callback gets the rescan's error. *)
Lemma C9_rescan_failure_counterexample :
  ∃ s, run "/srv" None posix_join initial
         [Request 0; Tick; StatDone 0 (inr (ms 5, false));
          StatDone 0 (inl "ENOENT")] = Some s ∧
       trace s =
         [OLocked 0;
          OGather 0 (ScanCb 0) VNull [Entry "/srv" (ms 5)];
          OCompare [Entry "/srv" (ms 5)] [];
          OBuilt 0 VNull;
          OGather 1 (ResyncCb 0) (VError "ENOENT") [];
          OUnlock 0; ODone 0 (VError "ENOENT")].
Proof. eexists. split; [vm_compute; reflexivity|reflexivity]. Qed.

(** ** C10 *)

(** C10: the build command exits with code 1 and wrote nothing; the
    build's callback gets the empty string, which is falsy; the
    coordinator rescans, stores the rescan's result as the new baseline,
    and hands [null] to the request's callback. *)
Theorem C10_silent_build_failure_passes_as_success :
  ∃ s, run "/srv" (Some "false") posix_join initial
         [Request 0; Tick; StatDone 0 (inr (ms 5, false));
          ChildEvent 0 (Exit (Some 1) None);
          StatDone 0 (inr (ms 5, false))] = Some s ∧
       trace s =
         [OLocked 0;
          OGather 0 (ScanCb 0) VNull [Entry "/srv" (ms 5)];
          OCompare [Entry "/srv" (ms 5)] [];
          OSpawn 0 "false";
          OBuilt 0 (VStr "");
          OGather 1 (ResyncCb 0) VNull [Entry "/srv" (ms 5)];
          OStore 0 [Entry "/srv" (ms 5)];
          OUnlock 0; ODone 0 VNull] ∧
       truthy (VStr "") = false ∧
       disk_state_value initial = [] ∧
       disk_state_value s = [Entry "/srv" (ms 5)].
Proof.
  eexists. split; [vm_compute; reflexivity|]. by split_and!.
Qed.

(** ** C1, C2, C3: where the code departs from the specification *)

(** C3: [/srv] holds two entries whose [fs.stat] fails (two dangling
    links): the one [gatherState] call invokes its callback twice. *)
Theorem C3_gatherState_calls_back_twice :
  ∃ s, run "/srv" None posix_join initial
         [Request 0; Tick; StatDone 0 (inr (ms 5, true));
          ReaddirDone 0 (inr ["a"; "b"]);
          StatDone 0 (inl "ENOENT"); StatDone 0 (inl "ENOENT")] = Some s ∧
       gathers s = [Gather (-1) [Entry "/srv" (ms 5)] (ScanCb 0)] ∧
       trace s =
         [OLocked 0;
          OGather 0 (ScanCb 0) (VError "ENOENT") [Entry "/srv" (ms 5)];
          OUnlock 0; ODone 0 (VError "ENOENT");
          OGather 0 (ScanCb 0) (VError "ENOENT") [Entry "/srv" (ms 5)];
          OUnlock 0; ODone 0 (VError "ENOENT")].
Proof. eexists. split; [vm_compute; reflexivity|]. by split. Qed.

(** C3, again: [/srv/b] fails first, then the directory [/srv/a] is
    listed with two files; [expected] goes from -1 to 1 and back to 0,
    and the same call reports success, with two walks still in flight. *)
Lemma gatherState_success_after_error :
  ∃ s, run "/srv" None posix_join initial
         [Request 0; Tick; StatDone 0 (inr (ms 5, true));
          ReaddirDone 0 (inr ["a"; "b"]);
          StatDone 1 (inl "ENOENT"); StatDone 0 (inr (ms 6, true));
          ReaddirDone 0 (inr ["x"; "y"])] = Some s ∧
       stats s = [(0, "/srv/a/x"); (0, "/srv/a/y"); (1, "/srv")]%nat ∧
       trace s =
         [OLocked 0;
          OGather 0 (ScanCb 0) (VError "ENOENT") [Entry "/srv" (ms 5)];
          OUnlock 0; ODone 0 (VError "ENOENT");
          OGather 0 (ScanCb 0) VNull
            [Entry "/srv" (ms 5); Entry "/srv/a" (ms 6)];
          OCompare [Entry "/srv" (ms 5); Entry "/srv/a" (ms 6)] [];
          OBuilt 0 VNull].
Proof. eexists. split; [vm_compute; reflexivity|]. by split. Qed.

(** C1: request 1 waits for the lock while request 0 scans a tree with
    two entries whose [fs.stat] fails.  Request 0 unlocks and is called
    back twice; its second [unlock] takes the running request 1 off the
    queue, so that request 2 is started while request 1 still scans. *)
Theorem C1_done_called_twice :
  ∃ s, run "/srv" (Some "make") posix_join initial
         [Request 0; Tick; Request 1; StatDone 0 (inr (ms 5, true));
          ReaddirDone 0 (inr ["a"; "b"]);
          StatDone 0 (inl "ENOENT"); Tick;
          StatDone 0 (inl "ENOENT");
          Request 2; Tick] = Some s ∧
       trace s =
         [OLocked 0;
          OGather 0 (ScanCb 0) (VError "ENOENT") [Entry "/srv" (ms 5)];
          OUnlock 0; ODone 0 (VError "ENOENT");
          OLocked 1;
          OGather 0 (ScanCb 0) (VError "ENOENT") [Entry "/srv" (ms 5)];
          OUnlock 0; ODone 0 (VError "ENOENT");
          OLocked 2] ∧
       stats s = [(1, "/srv"); (2, "/srv")]%nat ∧
       lock_queue (lockq s) = [2%nat].
Proof. eexists. split; [vm_compute; reflexivity|]. by split. Qed.

(** C2: the build is killed by a signal before it wrote anything.  Its
    callback gets the empty string, the rescan runs, and the baseline is
    replaced although the build failed. *)
Theorem C2_failed_build_replaces_baseline :
  ∃ s, run "/srv" (Some "make") posix_join initial
         [Request 0; Tick; StatDone 0 (inr (ms 5, true));
          ReaddirDone 0 (inr ["index.html"]);
          StatDone 0 (inr (ms 6, false));
          ChildEvent 0 (Exit None (Some "SIGKILL"));
          StatDone 0 (inr (ms 5, true)); ReaddirDone 0 (inr ["index.html"]);
          StatDone 0 (inr (ms 6, false))] = Some s ∧
       OBuilt 0 (VStr "") ∈ trace s ∧
       ODone 0 VNull ∈ trace s ∧
       disk_state_value initial = [] ∧
       disk_state_value s =
         [Entry "/srv" (ms 5); Entry "/srv/index.html" (ms 6)].
Proof.
  eexists. split; [vm_compute; reflexivity|]. split_and!; [| |done..].
  - apply (bool_decide_unpack _). vm_compute. exact I.
  - apply (bool_decide_unpack _). vm_compute. exact I.
Qed.

(** ** What does hold of C1 and C2 *)

Lemma unlock_then_done_app (t d : list obs) :
  unlock_then_done t → unlock_then_done d → unlock_then_done (t ++ d).
Proof.
  intros [Hd1 Hu1] [Hd2 Hu2]. split.
  - intros i r v Hi. destruct (decide (i < length t)%nat) as [Hlt|Hge].
    + rewrite lookup_app_l in Hi by done.
      destruct (Hd1 i r v Hi) as (j & -> & Hj). exists j. split; [done|].
      rewrite lookup_app_l by lia. done.
    + rewrite lookup_app_r in Hi by lia.
      destruct (Hd2 _ r v Hi) as (j & Hij & Hj).
      exists (length t + j)%nat. split; [lia|].
      rewrite lookup_app_r by lia. by replace (length t + j - length t)%nat
        with j by lia.
  - intros i r Hi. destruct (decide (i < length t)%nat) as [Hlt|Hge].
    + rewrite lookup_app_l in Hi by done.
      destruct (Hu1 i r Hi) as [v Hv]. exists v.
      rewrite lookup_app_l; [done|]. by apply lookup_lt_Some in Hv.
    + rewrite lookup_app_r in Hi by lia.
      destruct (Hu2 _ r Hi) as [v Hv]. exists v.
      rewrite lookup_app_r by lia.
      by replace (S i - length t)%nat with (S (i - length t)) by lia.
Qed.

(** Lookups in a list that is written out. *)
Ltac crush_lookup :=
  repeat match goal with
  | H : [] !! _ = Some _ |- _ => done
  | H : (_ :: _) !! ?i = Some _ |- _ => destruct i; simplify_eq/=
  end.

Lemma step_obs_unlock_then_done (rebuild_command : option string)
    (s : state) (d : list obs) :
  step_obs rebuild_command s d → unlock_then_done d.
Proof.
  destruct 1 as [|r|sid cb err rs d _ Hd|r err|r err].
  1,2,4,5: split; intros; crush_lookup; eauto.
  destruct Hd as [r _|r ps _ _|r ps d _ _ Hr|r _|r _].
  1,2,4,5: split; intros; crush_lookup; eauto.
  destruct Hr; split; intros; crush_lookup; eauto.
Qed.

(** X1, the part of C1 that holds: in every run, on every path, the request's
    callback is called right after [unlock()] of the same operation, and
    [unlock()] is never called without that call following at once. *)
Theorem unlock_precedes_done (root : string)
    (rebuild_command : option string)
    (path_join : string → string → string) (es : list event) (s : state) :
  run root rebuild_command path_join initial es = Some s →
  unlock_then_done (trace s).
Proof.
  apply (run_invariant root rebuild_command path_join
           (λ s, unlock_then_done (trace s))).
  - intros s1 e s2 Hinv Hstep.
    destruct (step_trace _ _ _ _ _ _ Hstep) as (d & -> & Hd).
    apply unlock_then_done_app; [done|]. by eapply step_obs_unlock_then_done.
  - split; intros; simpl in *; crush_lookup.
Qed.

Lemma unlock_precedes_done_witness :
  ∃ s, run "/srv" (Some "make") posix_join initial
         [Request 0; Tick; StatDone 0 (inr (ms 5, false));
          ChildEvent 0 (Data "make: *** No targets.  Stop.");
          ChildEvent 0 (Exit (Some 2) None)] = Some s ∧
       trace s =
         [OLocked 0;
          OGather 0 (ScanCb 0) VNull [Entry "/srv" (ms 5)];
          OCompare [Entry "/srv" (ms 5)] [];
          OSpawn 0 "make";
          OBuilt 0 (VStr "make: *** No targets.  Stop.");
          OUnlock 0;
          ODone 0 (VStr "make: *** No targets.  Stop.")] ∧
       unlock_then_done (trace s).
Proof.
  eexists. split; [vm_compute; reflexivity|]. split; [reflexivity|].
  apply (unlock_precedes_done "/srv" (Some "make") posix_join
           [Request 0; Tick; StatDone 0 (inr (ms 5, false));
            ChildEvent 0 (Data "make: *** No targets.  Stop.");
            ChildEvent 0 (Exit (Some 2) None)]).
  vm_compute; reflexivity.
Defined.

Section Baseline.
Variable root : string.
Variable rebuild_command : option string.
Variable path_join : string → string → string.






End Baseline.



(** ** [gatherState] while no [fs] call fails *)

Lemma calls_app (sid : nat) (t d : list obs) :
  calls sid (t ++ d) = (calls sid t + calls sid d)%nat.
Proof. unfold calls. by rewrite list.filter_app, length_app. Qed.

Lemma filter_delete_length {A} (P : A → Prop) `{∀ x, Decision (P x)}
    (l : list A) (i : nat) (x : A) :
  l !! i = Some x →
  length (filter P l) =
  (length (filter P (delete i l)) + if decide (P x) then 1 else 0)%nat.
Proof.
  intros Hi. rewrite (delete_Permutation l i x Hi) at 1.
  rewrite list.filter_cons. destruct (decide (P x)); simpl; lia.
Qed.

Lemma gather_inv_at_frame (s s' : state) (sid : nat) :
  gathers s' !! sid = gathers s !! sid →
  in_flight sid s' = in_flight sid s →
  calls sid (trace s') = calls sid (trace s) →
  gather_inv_at s sid → gather_inv_at s' sid.
Proof. unfold gather_inv_at. by intros -> -> ->. Qed.

Section Once.
Variable root : string.
Variable rebuild_command : option string.
Variable path_join : string → string → string.

Lemma gatherState_inv (cb : gather_cb) (s : state) :
  gather_inv s → gather_inv (gatherState root cb s).
Proof.
  intros Hinv sid. specialize (Hinv sid). unfold gather_inv_at in *.
  unfold gatherState, walk, begin, update_gather, in_flight in *. simpl.
  rewrite list.filter_app, length_app. simpl.
  destruct (decide (sid = length (gathers s))) as [->|Hne].
  - rewrite lookup_ge_None_2 in Hinv by done. destruct Hinv as [Hf Hc].
    rewrite list_lookup_alter, decide_True by done.
    rewrite lookup_app_r, Nat.sub_diag by done. simpl.
    rewrite list.filter_cons, decide_True by done. simpl.
    left. split_and!; [done|lia|lia].
  - rewrite list_lookup_alter_ne by done.
    rewrite list.filter_cons, decide_False by (simpl; congruence). simpl.
    rewrite Nat.add_0_r.
    destruct (decide (sid < length (gathers s))%nat).
    + by rewrite lookup_app_l by done.
    + rewrite lookup_ge_None_2 by (rewrite length_app; simpl; lia).
      by rewrite lookup_ge_None_2 in Hinv by lia.
Qed.

Lemma emit_inv (o : obs) (s : state) :
  (∀ sid, ¬ is_gather sid o) → gather_inv s → gather_inv (emit o s).
Proof.
  intros Ho Hinv sid. apply (gather_inv_at_frame s); [done..| |done].
  simpl. rewrite calls_app. unfold calls at 2. simpl.
  rewrite list.filter_cons, decide_False by apply Ho. simpl. lia.
Qed.

Lemma finish_inv (r : nat) (err : value) (s : state) :
  gather_inv s → gather_inv (finish r err s).
Proof.
  intros Hinv. unfold finish. apply emit_inv; [intros ? []|].
  apply emit_inv; [intros ? []|]. intros sid.
  by apply (gather_inv_at_frame s).
Qed.

Lemma built_cb_inv (r : nat) (err : value) (s : state) :
  gather_inv s → gather_inv (built_cb root r err s).
Proof.
  intros Hinv. unfold built_cb.
  destruct (truthy err); [apply finish_inv|apply gatherState_inv];
    by (apply emit_inv; [intros ? []|]).
Qed.

Lemma rebuild_inv (r : nat) (s : state) :
  gather_inv s → gather_inv (rebuild root rebuild_command r s).
Proof.
  intros Hinv. unfold rebuild.
  destruct rebuild_command as [command|]; [case_bool_decide|];
    try by apply built_cb_inv.
  apply emit_inv; [intros ? []|]. intros sid.
  by apply (gather_inv_at_frame s).
Qed.

(** The callback runs with no call of [sid] in flight, for the first
    time. *)
Lemma gather_callback_inv (sid : nat) (err : value) (s : state) :
  (∀ sid', sid' ≠ sid → gather_inv_at s sid') →
  is_Some (gathers s !! sid) →
  calls sid (trace s) = 0%nat → in_flight sid s = 0%nat →
  gather_inv (gather_callback root rebuild_command sid err s).
Proof.
  intros Hothers [g Hg] Hcalls Hfl. unfold gather_callback. rewrite Hg.
  assert (gather_inv (emit (OGather sid (callback g) err (results g)) s))
    as Hinv.
  { intros sid'. destruct (decide (sid' = sid)) as [->|Hne].
    - unfold gather_inv_at. simpl. rewrite Hg. right.
      rewrite calls_app, Hcalls. unfold calls. simpl.
      rewrite list.filter_cons, decide_True by done. done.
    - apply (gather_inv_at_frame s); [done..| |by apply Hothers].
      simpl. rewrite calls_app. unfold calls at 2. simpl.
      rewrite list.filter_cons, decide_False by (simpl; congruence). simpl. lia. }
  destruct (callback g) as [r|r]; destruct (truthy err).
  - by apply finish_inv.
  - rewrite equalsState_decide.
    match goal with |- context [bool_decide ?P] => destruct (bool_decide P) end.
    + apply finish_inv. by apply emit_inv; [intros ? []|].
    + apply rebuild_inv. by apply emit_inv; [intros ? []|].
  - by apply finish_inv.
  - apply finish_inv. apply emit_inv; [intros ? []|]. intros sid'.
    by apply (gather_inv_at_frame
                (emit (OGather sid (ResyncCb r) err (results g)) s)).
Qed.

(** [done] runs for a call that has not called back and counts one
    more than it has in flight. *)
Lemma done_inv (sid : nat) (s : state) (g : gather) :
  (∀ sid', sid' ≠ sid → gather_inv_at s sid') →
  gathers s !! sid = Some g →
  calls sid (trace s) = 0%nat →
  expected g = Z.of_nat (in_flight sid s) + 1 →
  gather_inv (done root rebuild_command sid s).
Proof.
  intros Hothers Hg Hcalls Hexp. unfold done.
  assert (∀ f s1 sid', sid' ≠ sid → gather_inv_at s1 sid' →
            gather_inv_at (update_gather sid f s1) sid') as Hupd.
  { intros f s1 sid' Hne. apply gather_inv_at_frame; [|done..].
    simpl. by rewrite list_lookup_alter_ne. }
  unfold expected_of. simpl.
  rewrite list_lookup_alter, decide_True, Hg by done. simpl.
  case_bool_decide as Hz.
  - apply gather_callback_inv; [| |done|simpl in *; unfold in_flight in *;
                                      simpl; lia].
    + intros sid' Hne. by apply Hupd, Hupd, Hothers.
    + simpl. rewrite !list_lookup_alter, !decide_True, Hg by done. by eexists.
  - intros sid'. destruct (decide (sid' = sid)) as [->|Hne];
      [|by apply Hupd, Hothers].
    unfold gather_inv_at. simpl.
    rewrite list_lookup_alter, decide_True, Hg by done. simpl.
    left. unfold in_flight in *. simpl in *. split_and!; [done|lia|lia].
Qed.

Lemma foldl_walk_effect (sid : nat) (p : string) (files : list string)
    (s : state) :
  let s' := foldl (λ s f, walk sid (path_join p f) s) s files in
  (∀ sid', in_flight sid' s' =
           (in_flight sid' s + if decide (sid' = sid) then length files else 0)%nat) ∧
  (∀ sid', sid' ≠ sid → gathers s' !! sid' = gathers s !! sid') ∧
  (∀ g, gathers s !! sid = Some g →
        ∃ g', gathers s' !! sid = Some g' ∧
              expected g' = expected g + Z.of_nat (length files)).
Proof.
  revert s. induction files as [|f files IH]; intros s; simpl.
  - split_and!.
    + intros sid'. destruct (decide (sid' = sid)); lia.
    + done.
    + intros g Hg. exists g. split; [done|lia].
  - destruct (IH (walk sid (path_join p f) s)) as (Hfl & Hne & Hg).
    split_and!.
    + intros sid'. rewrite Hfl. unfold in_flight, walk. simpl.
      rewrite list.filter_app, length_app, list.filter_cons. simpl.
      destruct (decide (sid = sid')), (decide (sid' = sid)); simpl; lia.
    + intros sid' Hsid. rewrite Hne by done. unfold walk. simpl.
      by rewrite list_lookup_alter_ne.
    + intros g Hs.
      destruct (Hg (Gather (expected g + 1) (results g) (callback g)))
        as (g' & Hg' & He).
      { unfold walk. simpl. by rewrite list_lookup_alter, decide_True, Hs. }
      exists g'. split; [done|]. simpl in He. lia.
Qed.

Lemma step_inv (s s' : state) (e : event) :
  fs_ok e = true →
  step root rebuild_command path_join s e = Some s' →
  gather_inv s → gather_inv s'.
Proof.
  intros Hok Hstep Hinv. unfold step in Hstep.
  destruct (thrown s); [done|].
  destruct e as [r| |i res|i res|c ce];
    destruct (next_ticks (lockq s)) as [|n]; try done.
  - (* a request *)
    simplify_eq. intros sid. by apply (gather_inv_at_frame s).
  - (* a tick *)
    simplify_eq. unfold dispatch_tick.
    destruct (_dispatch _) as [r|].
    + apply gatherState_inv, emit_inv; [intros ? []|]. intros sid.
      by apply (gather_inv_at_frame s).
    + intros sid. by apply (gather_inv_at_frame s).
  - (* fs.stat calls back *)
    destruct (stats s !! i) as [[sid p]|] eqn:Hi; [|done]. simplify_eq/=.
    destruct res as [err|[mt isDirectory]]; [done|].
    assert (∀ sid', in_flight sid' s =
              (in_flight sid' (set_stats (delete i (stats s)) s) +
               if decide (sid' = sid) then 1 else 0)%nat) as Hdel.
    { intros sid'. unfold in_flight. simpl.
      rewrite (filter_delete_length _ _ _ _ Hi). simpl.
      destruct (decide (sid = sid')), (decide (sid' = sid)); simpl; lia. }
    pose proof (Hinv sid) as Hsid. unfold gather_inv_at in Hsid.
    pose proof (Hdel sid) as Hdel'. rewrite decide_True in Hdel' by done.
    destruct (gathers s !! sid) as [g|] eqn:Hg; [|lia].
    destruct Hsid as [(Hc & He & _)|[_ ?]]; [|lia].
    assert (∀ f sid', sid' ≠ sid →
              gather_inv_at
                (update_gather sid f (set_stats (delete i (stats s)) s)) sid')
      as Hothers.
    { intros f sid' Hne. apply (gather_inv_at_frame s); [| |done|apply Hinv].
      - simpl. by rewrite list_lookup_alter_ne.
      - specialize (Hdel sid'). rewrite decide_False in Hdel by done.
        unfold in_flight in *. simpl in *. lia. }
    unfold stat_callback. destruct isDirectory.
    + intros sid'. destruct (decide (sid' = sid)) as [->|Hne].
      * unfold gather_inv_at. simpl.
        rewrite list_lookup_alter, decide_True, Hg by done. simpl. left.
        unfold in_flight in *. simpl in *.
        rewrite list.filter_app, length_app, list.filter_cons, decide_True
          by done.
        simpl. split_and!; [done|lia|lia].
      * match goal with |- gather_inv_at (set_readdirs _ ?s2) _ =>
          apply (gather_inv_at_frame s2); [done| |done|by apply Hothers] end.
        unfold in_flight. simpl.
        rewrite list.filter_app, length_app, list.filter_cons, decide_False
          by (simpl; congruence).
        simpl. lia.
    + eapply done_inv; [by apply Hothers| |done|].
      * simpl. by rewrite list_lookup_alter, decide_True, Hg.
      * simpl. unfold in_flight in *. simpl in *. lia.
  - (* fs.readdir calls back *)
    destruct (readdirs s !! i) as [[sid p]|] eqn:Hi; [|done]. simplify_eq/=.
    destruct res as [err|files]; [done|].
    assert (∀ sid', in_flight sid' s =
              (in_flight sid' (set_readdirs (delete i (readdirs s)) s) +
               if decide (sid' = sid) then 1 else 0)%nat) as Hdel.
    { intros sid'. unfold in_flight. simpl.
      rewrite (filter_delete_length _ (readdirs s) _ _ Hi). simpl.
      destruct (decide (sid = sid')), (decide (sid' = sid)); simpl; lia. }
    pose proof (Hinv sid) as Hsid. unfold gather_inv_at in Hsid.
    pose proof (Hdel sid) as Hdel'. rewrite decide_True in Hdel' by done.
    destruct (gathers s !! sid) as [g|] eqn:Hg; [|lia].
    destruct Hsid as [(Hc & He & _)|[_ ?]]; [|lia].
    unfold readdir_callback.
    destruct (foldl_walk_effect sid p files
                (set_readdirs (delete i (readdirs s)) s)) as (Hfl & Hne & Hex).
    destruct (Hex g Hg) as (g' & Hg' & He').
    destruct (foldl_walk_frame path_join sid p files
                (set_readdirs (delete i (readdirs s)) s)) as (Ht & _).
    eapply done_inv; [|exact Hg'|by rewrite Ht|].
    + intros sid' Hsid'. apply (gather_inv_at_frame s); [| | |apply Hinv].
      * by rewrite Hne.
      * rewrite Hfl, decide_False by done. specialize (Hdel sid').
        rewrite decide_False in Hdel by done. lia.
      * by rewrite Ht.
    + rewrite Hfl, decide_True by done. lia.
  - (* an event on a child *)
    destruct (children s !! c) as [ch|] eqn:Hch; [|done]. simplify_eq/=.
    unfold child_event_callback. rewrite Hch.
    destruct (child_handler ch ce) as [ch' [err|]].
    + apply built_cb_inv. intros sid. by apply (gather_inv_at_frame s).
    + intros sid. by apply (gather_inv_at_frame s).
Qed.

Lemma run_inv (es : list event) (s s' : state) :
  Forall (λ e, fs_ok e = true) es →
  run root rebuild_command path_join s es = Some s' →
  gather_inv s → gather_inv s'.
Proof.
  revert s. induction es as [|e es IH]; intros s Hok; simpl.
  - by intros [= <-].
  - inversion Hok as [|e' es' He Hes]; subst.
    destruct (step root rebuild_command path_join s e) as [s1|] eqn:Hs;
      [|done].
    simpl. intros Hrun Hinv. eapply IH; [done..|]. by eapply step_inv.
Qed.
End Once.

(** X3, the part of C3 that holds: while no [fs] call fails, a
    [gatherState] call invokes its callback at most once; when it has,
    none of its [fs] calls is in flight; and until then [expected] is
    the number of its [fs] calls in flight, which is not zero. *)
Theorem gatherState_calls_back_once_without_fs_errors (root : string)
    (rebuild_command : option string)
    (path_join : string → string → string) (es : list event) (s : state)
    (sid : nat) :
  Forall (λ e, fs_ok e = true) es →
  run root rebuild_command path_join initial es = Some s →
  (calls sid (trace s) ≤ 1)%nat ∧
  (calls sid (trace s) = 1%nat → in_flight sid s = 0%nat) ∧
  (calls sid (trace s) = 0%nat →
   ∀ g, gathers s !! sid = Some g →
        expected g = Z.of_nat (in_flight sid s) ∧ 0 < expected g).
Proof.
  intros Hok Hrun.
  assert (gather_inv s) as Hinv.
  { eapply run_inv; [done..|]. intros sid'. by unfold gather_inv_at. }
  specialize (Hinv sid). unfold gather_inv_at in Hinv.
  destruct (gathers s !! sid) as [g|].
  - destruct Hinv as [(Hc & He & Hp)|[Hc Hp]]; rewrite Hc.
    + split_and!; [lia|done|]. intros _ g' [= <-]. split; [done|lia].
    + split_and!; [lia|done|done].
  - destruct Hinv as [Hp Hc]. rewrite Hc. split_and!; [lia|done|done].
Qed.

Lemma gatherState_calls_back_once_witness :
  ∃ s, run "/srv" None posix_join initial
         [Request 0; Tick; StatDone 0 (inr (ms 5, true));
          ReaddirDone 0 (inr ["b"; "a"]); StatDone 1 (inr (ms 6, false));
          StatDone 0 (inr (ms 7, false))] = Some s ∧
       calls 0 (trace s) = 1%nat ∧ in_flight 0 s = 0%nat ∧
       (calls 0 (trace s) ≤ 1)%nat.
Proof.
  eexists. split; [vm_compute; reflexivity|]. split; [reflexivity|].
  split; [reflexivity|].
  apply (gatherState_calls_back_once_without_fs_errors "/srv" None posix_join
           [Request 0; Tick; StatDone 0 (inr (ms 5, true));
            ReaddirDone 0 (inr ["b"; "a"]); StatDone 1 (inr (ms 6, false));
            StatDone 0 (inr (ms 7, false))] _ 0).
  - repeat constructor.
  - vm_compute; reflexivity.
Defined.

(** * Further properties of the code *)

(** ** [compare] as a comparator *)

(** X4: [compare] is a consistent comparator: it returns -1, 0 or 1;
    swapping the arguments negates the result; it returns 0 exactly on
    equal strings; and "before" is transitive. *)
Theorem compare_consistent (a b c : string) :
  (compare a b = -1 ∨ compare a b = 0 ∨ compare a b = 1) ∧
  compare b a = - compare a b ∧
  (compare a b = 0 ↔ a = b) ∧
  (compare a b = -1 ↔ js_lt a b = true) ∧
  (js_lt a b = true → js_lt b c = true → compare a c = -1).
Proof.
  unfold compare.
  destruct (js_lt a b) eqn:Hab, (js_lt b a) eqn:Hba.
  - by rewrite (js_lt_asym a b Hab) in Hba.
  - split_and!; [by left|done| |done|].
    + split; [done|]. intros ->. by rewrite js_lt_irrefl in Hab.
    + intros _ Hbc. by rewrite (js_lt_trans a b c Hab Hbc).
  - split_and!; [by right; right|done| |done|done].
    split; [done|]. intros ->. by rewrite js_lt_irrefl in Hba.
  - split_and!; [by right; left|done| |done|done].
    split; [intros _|done].
    destruct (js_lt_trichotomy a b) as [?|[?|?]]; congruence.
Qed.

(** ** [printStatus] *)

Lemma string_app_cons (x : Ascii.ascii) (a b : string) :
  String x a +:+ b = String x (a +:+ b).
Proof. reflexivity. Qed.

Lemma string_length_app (a b : string) :
  String.length (a +:+ b) = (String.length a + String.length b)%nat.
Proof.
  induction a as [|x a IH]; [done|].
  rewrite string_app_cons. simpl. by rewrite IH.
Qed.

Lemma string_app_assoc (a b c : string) : (a +:+ b) +:+ c = a +:+ (b +:+ c).
Proof.
  induction a as [|x a IH]; [done|]. rewrite !string_app_cons. by rewrite IH.
Qed.

Lemma string_app_empty_r (a : string) : a +:+ "" = a.
Proof.
  induction a as [|x a IH]; [done|]. rewrite string_app_cons. by rewrite IH.
Qed.

Lemma equals_signs_length (n : nat) : String.length (equals_signs n) = n.
Proof.
  induction n as [|n IH]; [done|].
  change (equals_signs (S n)) with ("=" +:+ equals_signs n).
  rewrite string_length_app, IH. done.
Qed.

Lemma printStatus_loop_pads (fuel : nat) (padding : Z) (result : string) :
  padding ≤ Z.of_nat (String.length result) + Z.of_nat fuel →
  printStatus_loop fuel padding result =
  Some (result +:+
        equals_signs (Z.to_nat (padding - Z.of_nat (String.length result)))).
Proof.
  revert result. induction fuel as [|fuel IH]; intros result Hfuel; simpl.
  - rewrite bool_decide_eq_false_2 by lia.
    replace (Z.to_nat _) with 0%nat by lia. simpl.
    by rewrite string_app_empty_r.
  - case_bool_decide as Hlt.
    + rewrite IH by (rewrite string_length_app; simpl; lia).
      rewrite string_length_app. simpl.
      replace (Z.to_nat (padding - Z.of_nat (String.length result)))
        with (S (Z.to_nat (padding -
                            Z.of_nat (String.length result + 1)%nat))) by lia.
      simpl. by rewrite string_app_assoc.
    + replace (Z.to_nat _) with 0%nat by lia. simpl.
      by rewrite string_app_empty_r.
Qed.

(** X5: [printStatus] always ends its loop, and the line it writes is
    79 minus the length of the status times ["="] (none if the status
    is longer), a space, and the status: exactly 80 characters for a
    status of at most 79. *)
Theorem printStatus_right_justifies (status : string) :
  printStatus status =
    Some (equals_signs (79 - String.length status) +:+ " " +:+ status) ∧
  ((String.length status ≤ 79)%nat →
   String.length
     (equals_signs (79 - String.length status) +:+ " " +:+ status) = 80%nat).
Proof.
  unfold printStatus. rewrite printStatus_loop_pads by (simpl; lia).
  simpl. split.
  - replace (Z.to_nat (79 - Z.of_nat (String.length status) - Z.of_nat 0))
      with (79 - String.length status)%nat by lia.
    done.
  - intros Hs. rewrite !string_length_app, equals_signs_length. simpl. lia.
Qed.

(** ** [equalsState] as an equivalence *)

(** X6: a state that [equalsState] accepts can stand in for the other
    one in any later comparison; in particular [equalsState] is
    transitive. *)
Theorem equalsState_interchangeable (a b c : option (list entry)) :
  equalsState a b = Some true →
  equalsState a c = equalsState b c ∧
  (equalsState b c = Some true → equalsState a c = Some true).
Proof.
  destruct a as [a|], b as [b|]; try done.
  rewrite equalsState_decide. intros [= ->%bool_decide_eq_true_1].
  split; [done|]. by intros ->.
Qed.

Lemma equalsState_interchangeable_witness :
  equalsState (Some [Entry "/srv" (ms 5)]) (Some [Entry "/srv" (ms 7)]) =
  equalsState (Some [Entry "/srv" (ms 5)]) (Some [Entry "/srv" (ms 7)]) ∧
  (equalsState (Some [Entry "/srv" (ms 5)]) (Some [Entry "/srv" (ms 7)]) =
     Some true →
   equalsState (Some [Entry "/srv" (ms 5)]) (Some [Entry "/srv" (ms 7)]) =
     Some true).
Proof.
  apply (equalsState_interchangeable (Some [Entry "/srv" (ms 5)])
           (Some [Entry "/srv" (ms 5)]) (Some [Entry "/srv" (ms 7)])).
  vm_compute; reflexivity.
Defined.

(** ** The command line *)

Lemma js_join_space_empty (parts : list string) :
  js_join " " parts = "" ↔ parts = [] ∨ parts = [""].
Proof.
  split.
  - destruct parts as [|x [|y rest]]; simpl; [by left|intros ->; by right|].
    destruct x; done.
  - by intros [-> | ->].
Qed.

(** X7: the command line starts a build exactly when it names a
    command: with no [<cmd>] word, or with the one word [""], the
    [Rebuilder] it configures has no command and [rebuild] calls back
    with [null] at once; with anything else [rebuild] starts the words
    joined by spaces. *)
Theorem command_line_build (cmd : list string) (root : string) (r : nat)
    (s : state) :
  (no_command (command_of cmd) = true ↔ cmd = [] ∨ cmd = [""]) ∧
  (no_command (command_of cmd) = false →
   rebuild root (command_of cmd) r s =
   emit (OSpawn r (js_join " " cmd))
     (set_children (children s ++ [new_child r]) s)).
Proof.
  unfold command_of, no_command, rebuild.
  destruct cmd as [|x rest].
  - simpl. split; [|done]. split; [by left|done].
  - rewrite bool_decide_eq_true_2 by (simpl; lia). split.
    + rewrite bool_decide_eq_true, (js_join_space_empty (x :: rest)).
      split; [by intros [?|?]; [|right]|by intros [?|?]; [|right]].
    + intros Hne. by rewrite Hne.
Qed.

(** ** The order in which a scan collects its entries *)

Lemma sorted_perm_unique {A} (R : A → A → Prop) (l1 l2 : list A) :
  StronglySorted R l1 → StronglySorted R l2 → l1 ≡ₚ l2 →
  (∀ x y, x ∈ l1 → y ∈ l1 → R x y → R y x → x = y) → l1 = l2.
Proof.
  intros Hs1. revert l2. induction Hs1 as [|x l1 Hs1 IH Hx]; intros l2 Hs2 Hp Ha.
  - by apply Permutation_nil_l in Hp.
  - destruct Hs2 as [|y l2 Hs2 Hy]; [by apply Permutation_nil_r in Hp|].
    assert (x = y) as ->.
    { assert (x ∈ y :: l2) as Hxin by (rewrite <- Hp; left).
      assert (y ∈ x :: l1) as Hyin by (rewrite Hp; left).
      apply elem_of_cons in Hxin as [?|Hxin]; [done|].
      apply elem_of_cons in Hyin as [?|Hyin]; [done|].
      rewrite List.Forall_forall in Hx, Hy.
      apply Ha; [left|by right| |].
      - apply Hx. by apply list_elem_of_In.
      - apply Hy. by apply list_elem_of_In. }
    f_equal. apply IH; [done|by apply Permutation_cons_inv in Hp|].
    intros a b Hain Hbin. apply Ha; by right.
Qed.

Lemma path_inj_in (l : list entry) (x y : entry) :
  NoDup (path <$> l) → x ∈ l → y ∈ l → path x = path y → x = y.
Proof.
  intros Hnd [i Hi]%list_elem_of_lookup [j Hj]%list_elem_of_lookup Hp.
  assert (i = j) as ->; [|congruence].
  eapply (NoDup_lookup _ i j (path x) Hnd);
    rewrite list_lookup_fmap; [by rewrite Hi|by rewrite Hj, Hp].
Qed.

(** X8: two scans that collected entries with distinct paths compare
    equal exactly when they collected the same entries, in whatever
    order the [fs] callbacks arrived. *)
Theorem scan_order_does_not_matter (l1 l2 : list entry) :
  NoDup (path <$> l1) →
  (equalsState (Some (sort_results l1)) (Some (sort_results l2)) = Some true
   ↔ l1 ≡ₚ l2).
Proof.
  intros Hnd. rewrite equalsState_decide. split.
  - intros [= Heq%bool_decide_eq_true_1].
    etrans; [symmetry; apply (sort_perm (λ a b, compare (path a) (path b)))|].
    fold (sort_results l1). rewrite Heq. apply sort_perm.
  - intros Hp. f_equal. apply bool_decide_eq_true_2.
    apply (sorted_perm_unique entry_le); [apply sort_results_sorted..| |].
    + unfold sort_results. by rewrite !sort_perm.
    + intros x y Hx Hy Hxy Hyx.
      unfold sort_results in Hx, Hy. rewrite sort_perm in Hx, Hy.
      eapply path_inj_in; [done..|]. by apply path_le_antisym.
Qed.

Lemma scan_order_witness :
  equalsState
    (Some (sort_results [Entry "/srv/b" (ms 7); Entry "/srv" (ms 5);
                         Entry "/srv/a" (ms 6)]))
    (Some (sort_results [Entry "/srv" (ms 5); Entry "/srv/a" (ms 6);
                         Entry "/srv/b" (ms 7)])) = Some true.
Proof.
  apply (scan_order_does_not_matter
           [Entry "/srv/b" (ms 7); Entry "/srv" (ms 5); Entry "/srv/a" (ms 6)]
           [Entry "/srv" (ms 5); Entry "/srv/a" (ms 6); Entry "/srv/b" (ms 7)]).
  - apply (bool_decide_unpack _). vm_compute. exact I.
  - etrans; [apply Permutation_swap|]. apply perm_skip, Permutation_swap.
Defined.

(** ** [LockQueue]: no operation is lost *)

(** X9: under the lock's contract no operation is lost, started twice
    or left waiting without a dispatch: those started followed by
    those waiting are those that arrived, and while operations wait and
    none runs a tick is pending. *)
Theorem lock_queue_loses_no_operation (es : list lock_event) :
  disciplined lock_initial es = true →
  let st := lock_run lock_initial es in
  arrived st =
    started st ++ drop (length (running st)) (lock_queue (lq st)) ∧
  (running st = [] → lock_queue (lq st) ≠ [] → next_ticks (lq st) = 1%nat) ∧
  (running st = [] → next_ticks (lq st) = 0%nat →
   lock_queue (lq st) = [] ∧ started st = arrived st).
Proof.
  intros Hd st.
  destruct (lock_inv_run es lock_initial Hd lock_inv_initial)
    as (Hth & fin & Harr & Hst & Hq). fold st in Hth, Harr, Hst, Hq.
  rewrite Harr, Hst.
  destruct Hq as [[-> Hn]|(h & t & -> & -> & Hn)]; simpl.
  - split_and!; [by rewrite app_nil_r| |].
    + intros _ Hne. by destruct (lock_queue (lq st)).
    + intros _ Hz. destruct (lock_queue (lq st)); [|lia].
      by rewrite !app_nil_r.
  - split_and!; [by rewrite <- app_assoc|done..].
Qed.

Lemma lock_queue_loses_no_operation_witness :
  arrived (lock_run lock_initial
             [LLock 4; LLock 5; LTick; LLock 6; LUnlock 4; LTick]) =
  started (lock_run lock_initial
             [LLock 4; LLock 5; LTick; LLock 6; LUnlock 4; LTick]) ++ [6%nat].
Proof.
  apply (lock_queue_loses_no_operation
           [LLock 4; LLock 5; LTick; LLock 6; LUnlock 4; LTick]).
  reflexivity.
Defined.

(** ** When a build is started *)

Lemma compare_decides_app (rebuild_command : option string) (t d : list obs) :
  compare_decides rebuild_command t → compare_decides rebuild_command d →
  compare_decides rebuild_command (t ++ d).
Proof.
  intros [Hs1 Hc1] [Hs2 Hc2]. split.
  - intros i r command Hi. destruct (decide (i < length t)%nat) as [Hlt|Hge].
    + rewrite lookup_app_l in Hi by done.
      destruct (Hs1 i r command Hi) as (? & ? & j & rs & ps & -> & Hj & ?).
      split_and!; [done..|]. exists j, rs, ps. split_and!; [done| |done].
      by rewrite lookup_app_l by lia.
    + rewrite lookup_app_r in Hi by lia.
      destruct (Hs2 _ r command Hi) as (? & ? & j & rs & ps & Hij & Hj & ?).
      split_and!; [done..|]. exists (length t + j)%nat, rs, ps.
      split_and!; [lia| |done]. rewrite lookup_app_r by lia.
      by replace (length t + j - length t)%nat with j by lia.
  - intros j rs ps Hj. destruct (decide (j < length t)%nat) as [Hlt|Hge].
    + rewrite lookup_app_l in Hj by done. specialize (Hc1 j rs ps Hj).
      assert (∀ o, t !! S j = Some o → (t ++ d) !! S j = Some o) as Hnext.
      { intros o Ho. rewrite lookup_app_l; [done|].
        by apply lookup_lt_Some in Ho. }
      destruct (decide (rs = ps)).
      * destruct Hc1 as [r Hr]. exists r. by apply Hnext.
      * destruct Hc1 as [r [[c Hr]|Hr]]; exists r;
          [left; exists c|right]; by apply Hnext.
    + rewrite lookup_app_r in Hj by lia. specialize (Hc2 _ rs ps Hj).
      rewrite lookup_app_r by lia.
      by replace (S j - length t)%nat with (S (j - length t)) by lia.
Qed.

Lemma step_obs_compare_decides (rebuild_command : option string)
    (s : state) (d : list obs) :
  step_obs rebuild_command s d → compare_decides rebuild_command d.
Proof.
  destruct 1 as [|r|sid cb err rs d _ Hd|r err|r err].
  1,2,4,5: split; intros; crush_lookup.
  destruct Hd as [r _|r ps _ He|r ps d _ Hne Hr|r _|r _].
  1,4,5: split; intros; crush_lookup.
  - split; intros; crush_lookup. rewrite decide_True by done. by eexists.
  - destruct Hr as [_|command Hc Hcne]; split; intros; crush_lookup.
    + rewrite decide_False by done. eexists. by right.
    + split_and!; [done..|]. by eexists _, _, _.
    + rewrite decide_False by done. eexists. left. by eexists.
Qed.

(** X10: in every run a child is started only with the configured,
    non-empty command and only right after [equalsState] found the
    scanned state different from [this.disk_state]; when it finds them
    equal the next thing done is [unlock()], and when it finds them
    different the next thing is the build step (a child, or the
    immediate callback when there is no command). *)
Theorem build_only_on_difference (root : string)
    (rebuild_command : option string)
    (path_join : string → string → string) (es : list event) (s : state) :
  run root rebuild_command path_join initial es = Some s →
  compare_decides rebuild_command (trace s).
Proof.
  apply (run_invariant root rebuild_command path_join
           (λ s, compare_decides rebuild_command (trace s))).
  - intros s1 e s2 Hinv Hstep.
    destruct (step_trace _ _ _ _ _ _ Hstep) as (d & -> & Hd).
    apply compare_decides_app; [done|]. by eapply step_obs_compare_decides.
  - split; intros; simpl in *; crush_lookup.
Qed.

Lemma build_only_on_difference_witness :
  ∃ s, run "/srv" (Some "make") posix_join initial
         [Request 0; Tick; StatDone 0 (inr (ms 5, false));
          ChildEvent 0 (Exit (Some 0) None);
          StatDone 0 (inr (ms 5, false)); Request 1; Tick;
          StatDone 0 (inr (ms 5, false))] = Some s ∧
       trace s =
         [OLocked 0;
          OGather 0 (ScanCb 0) VNull [Entry "/srv" (ms 5)];
          OCompare [Entry "/srv" (ms 5)] [];
          OSpawn 0 "make";
          OBuilt 0 VNull;
          OGather 1 (ResyncCb 0) VNull [Entry "/srv" (ms 5)];
          OStore 0 [Entry "/srv" (ms 5)];
          OUnlock 0; ODone 0 VNull;
          OLocked 1;
          OGather 2 (ScanCb 1) VNull [Entry "/srv" (ms 5)];
          OCompare [Entry "/srv" (ms 5)] [Entry "/srv" (ms 5)];
          OUnlock 1; ODone 1 VNull] ∧
       compare_decides (Some "make") (trace s).
Proof.
  eexists. split; [vm_compute; reflexivity|]. split; [reflexivity|].
  apply (build_only_on_difference "/srv" (Some "make") posix_join
           [Request 0; Tick; StatDone 0 (inr (ms 5, false));
            ChildEvent 0 (Exit (Some 0) None);
            StatDone 0 (inr (ms 5, false)); Request 1; Tick;
            StatDone 0 (inr (ms 5, false))]).
  vm_compute; reflexivity.
Defined.

(** ** One rebuild check at a time *)

Lemma locks_app (t d : list obs) : locks (t ++ d) = (locks t + locks d)%nat.
Proof. unfold locks. by rewrite list.filter_app, length_app. Qed.

Lemma unlocks_app (t d : list obs) :
  unlocks (t ++ d) = (unlocks t + unlocks d)%nat.
Proof. unfold unlocks. by rewrite list.filter_app, length_app. Qed.

Lemma same_view_refl (s : state) : same_view s s.
Proof. by repeat split. Qed.

Lemma same_view_emit (s0 s : state) (o : obs) :
  ¬ is_locked o → ¬ is_unlock o → same_view s0 s → same_view s0 (emit o s).
Proof.
  intros Hl Hu (? & ? & ? & ? & ? & Hlk & Hul). repeat split; try done; simpl.
  - rewrite locks_app, Hlk. unfold locks at 2.
    rewrite list.filter_cons, decide_False by done. simpl. lia.
  - rewrite unlocks_app, Hul. unfold unlocks at 2.
    rewrite list.filter_cons, decide_False by done. simpl. lia.
Qed.

Lemma same_view_update_gather (s0 s : state) (sid : nat) (f : gather → gather) :
  same_view s0 s → same_view s0 (update_gather sid f s).
Proof. by intros (? & ? & ? & ? & ? & ? & ?). Qed.

Section Exclusive.
Variable root : string.
Variable rebuild_command : option string.
Variable path_join : string → string → string.

Lemma finish_continues (s0 s : state) (r : nat) (err : value) :
  same_view s0 s → continues root s0 (finish r err s).
Proof.
  intros (Hq & ? & ? & ? & ? & Hlk & Hul). apply cont_finished; try done; simpl.
  - by rewrite Hq.
  - rewrite !locks_app, Hlk. unfold locks at 2 3. simpl. lia.
  - rewrite !unlocks_app, Hul. unfold unlocks at 2 3. simpl. lia.
Qed.

Lemma gatherState_continues (s0 s : state) (cb : gather_cb) :
  same_view s0 s → continues root s0 (gatherState root cb s).
Proof.
  intros (? & Hst & ? & ? & ? & ? & ?).
  apply (cont_rescan _ _ _ (length (gathers s))); try done.
  simpl. by rewrite Hst.
Qed.

Lemma built_cb_continues (s0 s : state) (r : nat) (err : value) :
  same_view s0 s → continues root s0 (built_cb root r err s).
Proof.
  intros Hv. unfold built_cb.
  destruct (truthy err); [apply finish_continues|apply gatherState_continues];
    by apply same_view_emit; [intros []|intros []|].
Qed.

Lemma rebuild_continues (s0 s : state) (r : nat) :
  same_view s0 s → continues root s0 (rebuild root rebuild_command r s).
Proof.
  intros Hv. unfold rebuild.
  destruct rebuild_command as [command|]; [case_bool_decide|];
    try by apply built_cb_continues.
  destruct Hv as (? & ? & ? & Hch & ? & Hlk & Hul).
  apply (cont_spawned _ _ _ r); try done; simpl.
  - by rewrite Hch.
  - rewrite locks_app, Hlk. unfold locks at 2. simpl. lia.
  - rewrite unlocks_app, Hul. unfold unlocks at 2. simpl. lia.
Qed.

Lemma gather_callback_continues (s0 s : state) (sid : nat) (err : value) :
  same_view s0 s → is_Some (gathers s !! sid) →
  continues root s0 (gather_callback root rebuild_command sid err s).
Proof.
  intros Hv [g Hg]. unfold gather_callback. rewrite Hg.
  assert (same_view s0 (emit (OGather sid (callback g) err (results g)) s))
    as Hv1 by (by apply same_view_emit; [intros []|intros []|]).
  destruct (callback g) as [r|r]; destruct (truthy err).
  - by apply finish_continues.
  - rewrite equalsState_decide.
    match goal with |- context [bool_decide ?P] => destruct (bool_decide P) end.
    + apply finish_continues. by apply same_view_emit; [intros []|intros []|].
    + apply rebuild_continues. by apply same_view_emit; [intros []|intros []|].
  - by apply finish_continues.
  - apply finish_continues. apply same_view_emit; [intros []|intros []|].
    by destruct Hv1 as (? & ? & ? & ? & ? & ? & ?).
Qed.

Lemma done_continues (s0 s : state) (sid : nat) (g : gather) :
  same_view s0 s → gathers s !! sid = Some g →
  (expected g - 1 = 0 ∧ continues root s0 (done root rebuild_command sid s)) ∨
  (expected g - 1 ≠ 0 ∧ same_view s0 (done root rebuild_command sid s)).
Proof.
  intros Hv Hg. unfold done, expected_of. simpl.
  rewrite list_lookup_alter, decide_True, Hg by done. simpl.
  case_bool_decide as Hz; [left|right]; (split; [done|]).
  - apply gather_callback_continues.
    + by do 2 apply same_view_update_gather.
    + simpl. rewrite !list_lookup_alter, !decide_True, Hg by done. by eexists.
  - by apply same_view_update_gather.
Qed.

Lemma building_spawned (s s' : state) (r c : nat) :
  children s' = children s ++ [new_child r] → (∀ c', ¬ building c' s) →
  building c s' ↔ c = length (children s).
Proof.
  intros Hch Hnone. unfold building in *. rewrite Hch, fmap_app. simpl.
  destruct (decide (c < length (children s))%nat) as [Hlt|Hge].
  - rewrite lookup_app_l by (by rewrite length_fmap). split; [|lia].
    intros Hc. by destruct (Hnone c).
  - rewrite lookup_app_r by (rewrite length_fmap; lia).
    rewrite length_fmap. split.
    + intros Hc. apply lookup_lt_Some in Hc. simpl in Hc. lia.
    + intros ->. by rewrite Nat.sub_diag.
Qed.

(** A chain of callbacks that starts while the lock is held and nothing
    else is awaited hands the lock on in one of the three ways. *)
Lemma continues_exclusive (s0 s' : state) (h : nat) (t : list nat) :
  thrown s0 = false → stats s0 = [] → readdirs s0 = [] →
  (∀ c, ¬ building c s0) →
  locks (trace s0) = S (unlocks (trace s0)) →
  lock_queue (lockq s0) = h :: t → next_ticks (lockq s0) = 0%nat →
  continues root s0 s' → exclusive s'.
Proof.
  intros Hth Hst Hrd Hnone Hlk Hq Hn Hc.
  destruct Hc as [Hq' Hst' Hrd' Hch' Hth' Hlk' Hul'
                 |sid Hq' Hst' Hrd' Hch' Hth' Hlk' Hul'
                 |r Hq' Hst' Hrd' Hch' Hth' Hlk' Hul'];
    (split; [congruence|]).
  - exists false. split_and!.
    + apply phase_idle; [congruence..|]. unfold building in *.
      by rewrite Hch'.
    + lia.
    + rewrite Hq'. unfold unlock. rewrite Hq. simpl.
      destruct t as [|h' t]; simpl; [by rewrite Hn|].
      by rewrite Hn.
  - exists true. split_and!.
    + apply (phase_scan _ sid).
      * rewrite Hst', Hst. done.
      * rewrite Hst', Hst, Hrd', Hrd. by repeat constructor.
      * unfold building in *. by rewrite Hch'.
    + lia.
    + by rewrite Hq', Hq, Hn.
  - exists true. split_and!.
    + apply (phase_build _ (length (children s0))); [congruence..| |].
      * by apply (building_spawned s0 s' r).
      * intros c'. by apply (building_spawned s0 s' r).
    + lia.
    + by rewrite Hq', Hq, Hn.
Qed.

Lemma filter_all_length {A} (P : A → Prop) `{∀ x, Decision (P x)}
    (l : list A) :
  Forall P l → length (filter P l) = length l.
Proof.
  induction 1 as [|x l Hx Hl IH]; [done|].
  rewrite list.filter_cons, decide_True by done. simpl. by rewrite IH.
Qed.

Lemma in_flight_owner (s : state) (sid : nat) :
  Forall (λ p, p.1 = sid) (stats s ++ readdirs s) →
  in_flight sid s = (length (stats s) + length (readdirs s))%nat.
Proof.
  intros [Hs Hr]%Forall_app. unfold in_flight.
  by rewrite !filter_all_length.
Qed.

(** The phase survives a change of the state that leaves the [fs]
    calls and the [signaled] flags as they are. *)
Lemma phase_frame (s s' : state) (held : bool) :
  stats s' = stats s → readdirs s' = readdirs s →
  signaled <$> children s' = signaled <$> children s →
  phase s held → phase s' held.
Proof.
  intros Hst Hrd Hch Hp.
  destruct Hp as [? ? Hn|sid ? ? Hn|c ? ? Hb Hu].
  - apply phase_idle; [congruence..|]. unfold building in *. by rewrite Hch.
  - apply (phase_scan _ sid); [by rewrite Hst, Hrd..|].
    unfold building in *. by rewrite Hch.
  - apply (phase_build _ c); [congruence..| |]; unfold building in *;
      by rewrite Hch.
Qed.

Lemma child_done_exclusive (s : state) (c : nat) (ch : child) (v : value) :
  exclusive s → children s !! c = Some ch → signaled ch = false →
  exclusive
    (built_cb root (child_cb ch) v
       (set_children
          (<[c:=Child (output ch) true (child_cb ch)]> (children s)) s)).
Proof.
  intros (Hth & held & Hph & Hcnt & Hlq) Hch Hsg.
  assert (building c s) as Hb.
  { unfold building. by rewrite list_lookup_fmap, Hch, <- Hsg. }
  destruct Hph as [? ? Hnone|sid ? ? Hnone|c0 Hst Hrd Hb0 Hu];
    [by destruct (Hnone c)..|].
  destruct (lock_queue (lockq s)) as [|h t] eqn:Hq; [by destruct Hlq|].
  set (s1 := set_children _ s).
  eapply (continues_exclusive s1 _ h t);
    [done|done|done| |simpl; lia|exact Hq|exact Hlq|
     by apply built_cb_continues, same_view_refl].
  intros c' Hc'. unfold building in Hc'. subst s1. simpl in Hc'.
  rewrite list_fmap_insert in Hc'. simpl in Hc'.
  destruct (decide (c' = c)) as [->|Hne].
  - rewrite list_lookup_insert_eq in Hc'; [done|].
    rewrite length_fmap. by apply lookup_lt_Some in Hch.
  - rewrite list_lookup_insert_ne in Hc' by done.
    rewrite (Hu c' Hc'), (Hu c Hb) in Hne. done.
Qed.

Lemma step_exclusive (s s' : state) (e : event) :
  fs_ok e = true →
  step root rebuild_command path_join s e = Some s' →
  gather_inv s → exclusive s → exclusive s'.
Proof.
  intros Hok Hstep Hinv (Hth & held & Hph & Hcnt & Hlq).
  unfold step in Hstep. rewrite Hth in Hstep.
  destruct e as [r| |i res|i res|c ce];
    destruct (next_ticks (lockq s)) as [|n] eqn:Hn; try done.
  - (* a request *)
    simplify_eq. split; [done|]. exists held. split_and!.
    + by apply (phase_frame s).
    + done.
    + simpl. unfold lock. simpl. rewrite length_app. simpl.
      destruct (lock_queue (lockq s)) as [|h t] eqn:Hq; simpl.
      * destruct Hlq as [_ ->]. by rewrite Hn.
      * rewrite bool_decide_eq_false_2 by lia. simpl. by rewrite Hn.
  - (* a tick *)
    simplify_eq.
    destruct (lock_queue (lockq s)) as [|h t] eqn:Hq; [by destruct Hlq|].
    destruct held; [done|]. injection Hlq as ->.
    inversion Hph as [Hst Hrd Hnone| |]; subst.
    unfold dispatch_tick, _dispatch. simpl.
    split; [done|]. exists true. split_and!.
    + apply (phase_scan _ (length (gathers s))); simpl.
      * by rewrite Hst.
      * rewrite Hst, Hrd. by repeat constructor.
      * done.
    + simpl. rewrite locks_app, unlocks_app, Hcnt.
      change (locks [OLocked h]) with 1%nat.
      change (unlocks [OLocked h]) with 0%nat. lia.
    + done.
  - (* fs.stat calls back *)
    destruct (stats s !! i) as [[sid p]|] eqn:Hi; [|done]. simplify_eq/=.
    destruct res as [err|[mt isDirectory]]; [done|].
    inversion Hph as [Hst|sid0 Hne Hall Hnone|c Hst];
      subst; try (by rewrite Hst in Hi).
    assert (sid0 = sid) as ->.
    { pose proof Hall as [Hs _]%Forall_app.
      rewrite List.Forall_forall in Hs. symmetry.
      apply (Hs (sid, p)), list_elem_of_In, list_elem_of_lookup. eauto. }
    destruct (lock_queue (lockq s)) as [|h t] eqn:Hq; [by destruct Hlq|].
    pose proof (in_flight_owner s sid Hall) as Hfl.
    pose proof (Hinv sid) as Hsid. unfold gather_inv_at in Hsid.
    assert (0 < length (stats s))%nat as Hpos
      by (apply lookup_lt_Some in Hi; lia).
    destruct (gathers s !! sid) as [g|] eqn:Hg; [|lia].
    destruct Hsid as [(_ & He & _)|[_ ?]]; [|lia].
    assert (Forall (λ p, p.1 = sid) (delete i (stats s) ++ readdirs s))
      as Hall'.
    { pose proof Hall as [Hs Hr]%Forall_app. apply Forall_app.
      split; [|done]. by apply Forall_delete. }
    assert (length (stats s) = S (length (delete i (stats s)))) as Hlen.
    { rewrite length_delete by eauto. lia. }
    unfold stat_callback. destruct isDirectory.
    + split; [done|]. exists true. split_and!; [|done|simpl; by rewrite ?Hq].
      apply (phase_scan _ sid); simpl.
      * destruct (readdirs s); by destruct (delete i (stats s)).
      * rewrite app_assoc. apply Forall_app. split; [done|].
        by repeat constructor.
      * done.
    + match goal with |- exclusive (done _ _ _ ?s2) =>
        destruct (done_continues (set_stats (delete i (stats s)) s) s2 sid
                    (Gather (expected g)
                       (results g ++ [Entry p mt]) (callback g)))
          as [[Hz Hc]|[Hz Hv]] end.
      * by apply same_view_update_gather, same_view_refl.
      * simpl. by rewrite list_lookup_alter, decide_True, Hg.
      * simpl in Hz.
        eapply continues_exclusive; [| | | | | |  |exact Hc]; simpl;
          [done| | |done|lia|exact Hq|done].
        -- destruct (delete i (stats s)); [done|simpl in *; lia].
        -- destruct (readdirs s); [done|simpl in *; lia].
      * simpl in Hz. destruct Hv as (Hq' & Hst' & Hrd' & Hch' & Hth' & Hl' & Hu').
        simpl in *. split; [congruence|]. exists true. split_and!.
        -- apply (phase_scan _ sid).
           ++ rewrite Hst', Hrd'.
              destruct (delete i (stats s)), (readdirs s); simpl in *;
                try done; lia.
           ++ by rewrite Hst', Hrd'.
           ++ unfold building in *. by rewrite Hch'.
        -- lia.
        -- by rewrite Hq', Hq.
  - (* fs.readdir calls back *)
    destruct (readdirs s !! i) as [[sid p]|] eqn:Hi; [|done]. simplify_eq/=.
    destruct res as [err|files]; [done|].
    inversion Hph as [? Hrd|sid0 Hne Hall Hnone|c ? Hrd];
      subst; try (by rewrite Hrd in Hi).
    assert (sid0 = sid) as ->.
    { pose proof Hall as [_ Hr]%Forall_app.
      rewrite List.Forall_forall in Hr. symmetry.
      apply (Hr (sid, p)), list_elem_of_In, list_elem_of_lookup. eauto. }
    destruct (lock_queue (lockq s)) as [|h t] eqn:Hq; [by destruct Hlq|].
    pose proof (in_flight_owner s sid Hall) as Hfl.
    pose proof (Hinv sid) as Hsid. unfold gather_inv_at in Hsid.
    assert (0 < length (readdirs s))%nat as Hpos
      by (apply lookup_lt_Some in Hi; lia).
    destruct (gathers s !! sid) as [g|] eqn:Hg; [|lia].
    destruct Hsid as [(_ & He & _)|[_ ?]]; [|lia].
    assert (length (readdirs s) = S (length (delete i (readdirs s)))) as Hlen.
    { rewrite length_delete by eauto. lia. }
    unfold readdir_callback.
    set (s1 := set_readdirs (delete i (readdirs s)) s).
    set (s2 := foldl (λ s f, walk sid (path_join p f) s) s1 files).
    assert (lockq s2 = lockq s ∧ children s2 = children s ∧
            thrown s2 = thrown s ∧ trace s2 = trace s ∧
            readdirs s2 = delete i (readdirs s) ∧
            stats s2 = stats s ++ ((λ f, (sid, path_join p f)) <$> files) ∧
            ∃ g2, gathers s2 !! sid = Some g2 ∧
                  expected g2 = expected g + Z.of_nat (length files))
      as (Hq2 & Hch2 & Hth2 & Ht2 & Hrd2 & Hst2 & g2 & Hg2 & He2).
    { subst s2. assert (gathers s1 !! sid = Some g) as Hg1 by done.
      assert (lockq s1 = lockq s ∧ children s1 = children s ∧
              thrown s1 = thrown s ∧ trace s1 = trace s ∧
              readdirs s1 = delete i (readdirs s) ∧ stats s1 = stats s)
        as (<- & <- & <- & <- & <- & <-) by done.
      clearbody s1. clear -Hg1. revert s1 g Hg1.
      induction files as [|f files IH]; intros s1 g Hg1; simpl.
      - rewrite app_nil_r. split_and!; try done. exists g. split; [done|lia].
      - destruct (IH (walk sid (path_join p f) s1)
                    (Gather (expected g + 1) (results g) (callback g)))
          as (-> & -> & -> & -> & -> & -> & g2 & Hg2 & He2).
        { simpl. by rewrite list_lookup_alter, decide_True, Hg1. }
        simpl. split_and!; try done; [by rewrite <- app_assoc|].
        exists g2. split; [done|]. simpl in He2. lia. }
    destruct (done_continues s2 s2 sid g2 (same_view_refl s2) Hg2)
      as [[Hz Hc]|[Hz Hv]].
    + eapply continues_exclusive; [| | | | | | |exact Hc];
        [by rewrite Hth2| | | |by rewrite Ht2; lia|by rewrite Hq2|
         by rewrite Hq2].
      * rewrite Hst2. destruct (stats s), files; simpl in *; try done; lia.
      * rewrite Hrd2. destruct (delete i (readdirs s)); [done|simpl in *; lia].
      * unfold building in *. by rewrite Hch2.
    + destruct Hv as (Hq' & Hst' & Hrd' & Hch' & Hth' & Hl' & Hu').
      split; [congruence|]. exists true. split_and!.
      * apply (phase_scan _ sid).
        -- rewrite Hst', Hrd', Hst2, Hrd2.
           destruct (stats s), files, (delete i (readdirs s)); simpl in *;
             try done; lia.
        -- rewrite Hst', Hrd', Hst2, Hrd2.
           pose proof Hall as [Hs Hr]%Forall_app.
           rewrite !Forall_app. split_and!; [done| |by apply Forall_delete].
           by apply Forall_fmap, Forall_true.
        -- unfold building in *. by rewrite Hch', Hch2.
      * rewrite Hl', Hu', Ht2. lia.
      * by rewrite Hq', Hq2, Hq.
  - (* an event on a child *)
    destruct (children s !! c) as [ch|] eqn:Hch; [|done]. simplify_eq/=.
    unfold child_event_callback. rewrite Hch.
    destruct (child_handler ch ce) as [ch' called] eqn:Hh.
    assert (signaled ch' = signaled ch → called = None →
            exclusive (set_children (<[c:=ch']> (children s)) s)) as Hsame.
    { intros Hsg _. split; [done|]. exists held.
      split_and!; [|exact Hcnt|simpl; by rewrite Hn].
      apply (phase_frame s); [done|done| |done]. simpl.
      rewrite list_fmap_insert, Hsg. apply list_insert_id.
      by rewrite list_lookup_fmap, Hch. }
    destruct ce as [data|err|code signal]; simpl in Hh.
    + simplify_eq. by apply Hsame.
    + destruct (signaled ch) eqn:Hsg; simplify_eq; [by apply Hsame|].
      apply child_done_exclusive; [|done..].
      split; [done|]. exists held. split_and!; [done..|]. by rewrite Hn.
    + destruct (signaled ch) eqn:Hsg; simplify_eq; [by apply Hsame|].
      apply child_done_exclusive; [|done..].
      split; [done|]. exists held. split_and!; [done..|]. by rewrite Hn.
Qed.

Lemma run_exclusive (es : list event) (s s' : state) :
  Forall (λ e, fs_ok e = true) es →
  run root rebuild_command path_join s es = Some s' →
  gather_inv s → exclusive s → gather_inv s' ∧ exclusive s'.
Proof.
  revert s. induction es as [|e es IH]; intros s Hok; simpl.
  - by intros [= <-].
  - inversion Hok as [|e' es' He Hes]; subst.
    destruct (step root rebuild_command path_join s e) as [s1|] eqn:Hs;
      [|done].
    simpl. intros Hrun Hinv Hex. eapply IH; [done..| |].
    + by eapply step_inv.
    + by eapply step_exclusive.
Qed.
End Exclusive.

(** X11: while no [fs] call fails, at most one rebuild check is under
    way.  The process never throws; [unlock] has been called as often
    as the lock was given out, or once less; all [fs] calls in flight
    belong to one [gatherState] call; at most one child has not yet
    reported back, and while one has not, no [fs] call is in flight;
    and [fs] calls or a child are awaited only while the lock is
    held. *)
Theorem one_rebuild_check_at_a_time (root : string)
    (rebuild_command : option string)
    (path_join : string → string → string) (es : list event) (s : state) :
  Forall (λ e, fs_ok e = true) es →
  run root rebuild_command path_join initial es = Some s →
  thrown s = false ∧
  (unlocks (trace s) ≤ locks (trace s) ≤ unlocks (trace s) + 1)%nat ∧
  (∀ p q, p ∈ stats s ++ readdirs s → q ∈ stats s ++ readdirs s →
          p.1 = q.1) ∧
  (∀ c c', building c s → building c' s → c = c') ∧
  (∀ c, building c s → stats s = [] ∧ readdirs s = []) ∧
  (stats s ++ readdirs s ≠ [] ∨ (∃ c, building c s) →
   locks (trace s) = S (unlocks (trace s))).
Proof.
  intros Hok Hrun.
  destruct (run_exclusive root rebuild_command path_join es initial s Hok Hrun)
    as (_ & Hth & held & Hph & Hcnt & _).
  { intros sid. by unfold gather_inv_at. }
  { split; [done|]. exists false. split_and!; [|done..].
    apply phase_idle; [done..|]. intros c Hc. by unfold building in Hc. }
  split; [done|]. split; [destruct held; lia|].
  destruct Hph as [Hst Hrd Hnone|sid Hne Hall Hnone|c Hst Hrd Hb Hu].
  - rewrite Hst, Hrd. split_and!.
    + by intros p q []%elem_of_nil.
    + intros c ? Hc. by destruct (Hnone c).
    + intros c Hc. by destruct (Hnone c).
    + intros [?|[c Hc]]; [done|by destruct (Hnone c)].
  - split_and!; [| | |lia].
    + rewrite list.Forall_forall in Hall. intros p q Hp Hq.
      by rewrite (Hall p Hp), (Hall q Hq).
    + intros c ? Hc. by destruct (Hnone c).
    + intros c Hc. by destruct (Hnone c).
  - rewrite Hst, Hrd. split_and!; [| |done|lia].
    + by intros p q []%elem_of_nil.
    + intros c1 c2 H1 H2. by rewrite (Hu c1 H1), (Hu c2 H2).
Qed.

Lemma one_rebuild_check_witness :
  ∃ s, run "/srv" (Some "make") posix_join initial
         [Request 0; Tick; Request 1; StatDone 0 (inr (ms 5, true));
          ReaddirDone 0 (inr ["a"; "b"]); StatDone 1 (inr (ms 6, false));
          StatDone 0 (inr (ms 7, false))] = Some s ∧
       children s = [new_child 0] ∧ stats s = [] ∧
       lock_queue (lockq s) = [0; 1]%nat ∧
       locks (trace s) = S (unlocks (trace s)).
Proof.
  eexists. split; [vm_compute; reflexivity|]. split_and!; [done..|].
  apply (one_rebuild_check_at_a_time "/srv" (Some "make") posix_join
           [Request 0; Tick; Request 1; StatDone 0 (inr (ms 5, true));
            ReaddirDone 0 (inr ["a"; "b"]); StatDone 1 (inr (ms 6, false));
            StatDone 0 (inr (ms 7, false))]).
  - repeat constructor.
  - vm_compute; reflexivity.
  - right. by exists 0%nat.
Defined.

(** ** [Server]: the listing of a directory *)

Lemma sort_files_insert_sorted (x : string) (l : list string) :
  StronglySorted path_le l → StronglySorted path_le (sort_insert compare x l).
Proof.
  induction 1 as [|y l Hl IH Hy]; simpl.
  - repeat constructor.
  - case_bool_decide as Hxy.
    + constructor; [by constructor|]. constructor; [done|].
      eapply List.Forall_impl; [|exact Hy]. intros z Hz.
      eapply path_le_trans; [exact Hxy|exact Hz].
    + constructor; [done|].
      rewrite sort_insert_perm. constructor; [|done].
      destruct (path_le_total x y); done.
Qed.

Lemma sort_files_sorted (l : list string) :
  StronglySorted path_le (sort_files l).
Proof.
  induction l as [|x l IH]; simpl; [constructor|].
  by apply sort_files_insert_sorted.
Qed.

(** X12: the listing of a directory shows its entries in code-unit
    order, each as often as [fs.readdir] reported it, and is the same
    whatever order [fs.readdir] reported them in. *)
Theorem directory_listing_ignores_readdir_order (basename relative : string)
    (files1 files2 : list string) :
  files1 ≡ₚ files2 →
  StronglySorted path_le (sort_files files1) ∧
  sort_files files1 ≡ₚ files1 ∧
  serveDirectory basename relative (inr files1) =
  serveDirectory basename relative (inr files2).
Proof.
  intros Hp. split; [apply sort_files_sorted|]. split; [apply sort_perm|].
  unfold serveDirectory.
  replace (sort_files files2) with (sort_files files1); [done|].
  apply (sorted_perm_unique path_le); [apply sort_files_sorted..| |].
  - unfold sort_files. by rewrite !sort_perm.
  - intros x y _ _. apply path_le_antisym.
Qed.

Lemma directory_listing_witness :
  serveDirectory "dist" "/" (inr ["main.js"; "index.html"]) =
  serveDirectory "dist" "/" (inr ["index.html"; "main.js"]).
Proof.
  apply (directory_listing_ignores_readdir_order "dist" "/"
           ["main.js"; "index.html"] ["index.html"; "main.js"]).
  apply Permutation_swap.
Defined.

(** ** The baseline and the array it shares *)

Lemma last_stored_app (t d : list obs) :
  last_stored (t ++ d) =
  foldl (λ rs o, match o with OStore _ rs' => rs' | _ => rs end)
    (last_stored t) d.
Proof. unfold last_stored. by rewrite foldl_app. Qed.

Lemma untouched_refl (s : state) : untouched s s.
Proof. by split_and!. Qed.

Lemma untouched_emit (s0 s : state) (o : obs) :
  ¬ is_store o → untouched s0 s → untouched s0 (emit o s).
Proof.
  intros Ho (Hd & Hl & Hc & Hg). split_and!; simpl; [done| | |done].
  - rewrite last_stored_app, Hl. simpl. by destruct o.
  - intros sid. rewrite calls_app. specialize (Hc sid). lia.
Qed.

Lemma untouched_baseline (s0 s : state) :
  untouched s0 s → baseline_inv s0 → baseline_inv s.
Proof.
  intros (Hd & Hl & Hc & Hg). unfold baseline_inv. rewrite Hd, Hl.
  destruct (disk_state s0) as [|sid]; [done|].
  intros (g & Hsid & Hr & Hs & Hp). exists g. split_and!; [by apply Hg|done..|].
  specialize (Hc sid). lia.
Qed.

Lemma in_flight_stat (s : state) (i sid : nat) (p : string) :
  stats s !! i = Some (sid, p) → (0 < in_flight sid s)%nat.
Proof.
  intros Hi. unfold in_flight.
  rewrite (filter_delete_length _ _ _ _ Hi), decide_True by done. lia.
Qed.

Lemma in_flight_readdir (s : state) (i sid : nat) (p : string) :
  readdirs s !! i = Some (sid, p) → (0 < in_flight sid s)%nat.
Proof.
  intros Hi. unfold in_flight.
  rewrite (filter_delete_length _ (readdirs s) _ _ Hi), decide_True by done.
  lia.
Qed.

Lemma baseline_update_gather (s : state) (sid : nat) (f : gather → gather) :
  disk_state s ≠ RResults sid →
  baseline_inv s → baseline_inv (update_gather sid f s).
Proof.
  unfold baseline_inv, update_gather. simpl.
  destruct (disk_state s) as [|sid']; [done|].
  intros Hne (g & Hsid & Hrest). exists g. split; [|done].
  rewrite list_lookup_alter_ne; [done|congruence].
Qed.

Section Baseline.
Variable root : string.
Variable rebuild_command : option string.
Variable path_join : string → string → string.

Lemma finish_untouched (s0 s : state) (r : nat) (err : value) :
  untouched s0 s → untouched s0 (finish r err s).
Proof.
  intros H. unfold finish. apply untouched_emit; [by intros []|].
  apply untouched_emit; [by intros []|]. done.
Qed.

Lemma gatherState_untouched (s0 s : state) (cb : gather_cb) :
  untouched s0 s → untouched s0 (gatherState root cb s).
Proof.
  intros (Hd & Hl & Hc & Hg). split_and!; simpl; [done..|].
  intros sid g Hsid. apply Hg in Hsid.
  pose proof (lookup_lt_Some _ _ _ Hsid) as Hlt.
  rewrite list_lookup_alter_ne by lia. by rewrite lookup_app_l.
Qed.

Lemma built_cb_untouched (s0 s : state) (r : nat) (err : value) :
  untouched s0 s → untouched s0 (built_cb root r err s).
Proof.
  intros H. unfold built_cb.
  assert (untouched s0 (emit (OBuilt r err) s)) as H'
    by (apply untouched_emit; [by intros []|done]).
  destruct (truthy err).
  - by apply finish_untouched.
  - by apply gatherState_untouched.
Qed.

Lemma rebuild_untouched (s0 s : state) (r : nat) :
  untouched s0 s → untouched s0 (rebuild root rebuild_command r s).
Proof.
  intros H. unfold rebuild.
  destruct rebuild_command as [command|]; [|by apply built_cb_untouched].
  case_bool_decide; [by apply built_cb_untouched|].
  apply untouched_emit; [by intros []|]. done.
Qed.

Lemma gather_callback_baseline (sid : nat) (err : value) (s : state) :
  (truthy err = false →
   ∀ g, gathers s !! sid = Some g → StronglySorted entry_le (results g)) →
  baseline_inv s →
  baseline_inv (gather_callback root rebuild_command sid err s).
Proof.
  intros Hsorted Hinv. unfold gather_callback.
  destruct (gathers s !! sid) as [g|] eqn:Hsid; [|done].
  assert (untouched s (emit (OGather sid (callback g) err (results g)) s))
    as Hu by (apply untouched_emit; [by intros []|apply untouched_refl]).
  destruct (callback g) as [r|r].
  - eapply untouched_baseline; [|exact Hinv].
    destruct (truthy err); [by apply finish_untouched|].
    match goal with
    | |- context [emit (OCompare ?a ?b) ?s1] =>
        assert (untouched s (emit (OCompare a b) s1)) as Hu'
          by (apply untouched_emit; [by intros []|done])
    end.
    destruct (equalsState _ _) as [[|]|].
    + by apply finish_untouched.
    + by apply rebuild_untouched.
    + done.
  - destruct (truthy err) eqn:Herr.
    + eapply untouched_baseline; [|exact Hinv]. by apply finish_untouched.
    + unfold baseline_inv. simpl. exists g. split_and!.
      * done.
      * rewrite <- !app_assoc, last_stored_app. done.
      * by eapply Hsorted.
      * rewrite !calls_app.
        assert (calls sid [OGather sid (ResyncCb r) err (results g)] = 1%nat)
          as ->; [|lia].
        unfold calls. by rewrite list.filter_cons, decide_True by done.
Qed.

Lemma done_baseline (sid : nat) (s : state) :
  disk_state s ≠ RResults sid →
  baseline_inv s → baseline_inv (done root rebuild_command sid s).
Proof.
  intros Hne Hinv. unfold done.
  match goal with
  | |- context [bool_decide (expected_of sid ?s1 = 0)] =>
      assert (baseline_inv s1) as H1 by (by apply baseline_update_gather)
  end.
  case_bool_decide; [|done].
  apply gather_callback_baseline.
  - intros _ g. unfold update_gather. simpl.
    rewrite !list_lookup_alter, !decide_True by done.
    destruct (gathers s !! sid) as [g0|]; simpl; [|done].
    intros [= <-]. simpl. apply sort_results_sorted.
  - by apply baseline_update_gather.
Qed.

Lemma foldl_walk_baseline (sid : nat) (p : string) (files : list string)
    (s : state) :
  disk_state s ≠ RResults sid →
  baseline_inv s →
  let s' := foldl (λ s f, walk sid (path_join p f) s) s files in
  baseline_inv s' ∧ disk_state s' = disk_state s.
Proof.
  revert s. induction files as [|f files IH]; intros s Hne Hinv; simpl;
    [done|].
  destruct (IH (walk sid (path_join p f) s)) as [H1 H2].
  - done.
  - unfold walk. by apply (baseline_update_gather s).
  - done.
Qed.

Lemma step_baseline (s s' : state) (e : event) :
  fs_ok e = true →
  step root rebuild_command path_join s e = Some s' →
  gather_inv s → baseline_inv s → baseline_inv s'.
Proof.
  intros Hok Hstep Hg Hinv.
  assert (∀ sid, (0 < in_flight sid s)%nat → disk_state s ≠ RResults sid)
    as Howner.
  { intros sid Hpos Hd. unfold baseline_inv in Hinv. rewrite Hd in Hinv.
    destruct Hinv as (g & Hsid & _ & _ & Hc).
    specialize (Hg sid). unfold gather_inv_at in Hg. rewrite Hsid in Hg.
    destruct Hg as [(? & _)|(_ & ?)]; lia. }
  unfold step in Hstep. destruct (thrown s); [done|].
  destruct e as [r| |i res|i res|c ce];
    destruct (next_ticks (lockq s)) as [|n]; try done.
  - (* a request *)
    by simplify_eq.
  - (* a tick *)
    simplify_eq. unfold dispatch_tick. simpl.
    destruct (_dispatch _) as [r|]; [|done].
    eapply untouched_baseline; [|exact Hinv].
    apply gatherState_untouched, untouched_emit; [by intros []|].
    by split_and!.
  - (* [fs.stat] calls back *)
    destruct (stats s !! i) as [[sid p]|] eqn:Hi; [|done].
    simpl in Hstep. simplify_eq.
    pose proof (Howner sid (in_flight_stat _ _ _ _ Hi)) as Hne.
    destruct res as [err|[m d]]; [done|]. unfold stat_callback.
    match goal with
    | |- context [update_gather sid ?f ?s0] =>
        assert (baseline_inv (update_gather sid f s0)) as H1
          by (by apply baseline_update_gather)
    end.
    destruct d; [done|]. by apply done_baseline.
  - (* [fs.readdir] calls back *)
    destruct (readdirs s !! i) as [[sid p]|] eqn:Hi; [|done].
    simpl in Hstep. simplify_eq.
    pose proof (Howner sid (in_flight_readdir _ _ _ _ Hi)) as Hne.
    destruct res as [err|files]; [done|]. unfold readdir_callback.
    match goal with
    | |- context [foldl ?f ?s0 files] =>
        destruct (foldl_walk_baseline sid p files s0) as [H1 H2]; [done..|]
    end.
    apply done_baseline; [|done]. by rewrite H2.
  - (* an event on a child *)
    destruct (children s !! c) as [ch|] eqn:Hc; [|done].
    simpl in Hstep. simplify_eq. unfold child_event_callback. rewrite Hc.
    destruct (child_handler ch ce) as [ch' [v|]]; [|done].
    eapply untouched_baseline; [|exact Hinv].
    apply built_cb_untouched. by split_and!.
Qed.

Lemma run_baseline (es : list event) (s s' : state) :
  Forall (λ e, fs_ok e = true) es →
  run root rebuild_command path_join s es = Some s' →
  gather_inv s → baseline_inv s → baseline_inv s'.
Proof.
  revert s. induction es as [|e es IH]; intros s Hok; simpl.
  - by intros [= <-].
  - inversion Hok as [|e' es' He Hes]; subst.
    destruct (step root rebuild_command path_join s e) as [s1|] eqn:Hs;
      [|done].
    simpl. intros Hrun Hg Hinv. eapply IH; [done..| |].
    + by eapply step_inv.
    + by eapply step_baseline.
Qed.
End Baseline.

(** X13: while no [fs] call fails, the array that [this.disk_state]
    shares with the [gatherState] call it came from is never changed
    after the assignment: the baseline is always the array as the last
    [this.disk_state = results] assigned it (the empty array before the
    first one), and it is sorted by path. *)
Theorem baseline_not_modified_after_store (root : string)
    (rebuild_command : option string)
    (path_join : string → string → string) (es : list event) (s : state) :
  Forall (λ e, fs_ok e = true) es →
  run root rebuild_command path_join initial es = Some s →
  disk_state_value s = last_stored (trace s) ∧
  StronglySorted entry_le (disk_state_value s).
Proof.
  intros Hok Hrun.
  assert (baseline_inv s) as Hinv.
  { eapply run_baseline; [done..| |done]. intros sid. by unfold gather_inv_at. }
  unfold baseline_inv in Hinv. unfold disk_state_value, results_of.
  destruct (disk_state s) as [|sid].
  - split; [done|constructor].
  - destruct Hinv as (g & -> & -> & Hs & _). done.
Qed.

Lemma baseline_not_modified_witness :
  ∃ s, run "/srv" None posix_join initial
         [Request 0; Tick; StatDone 0 (inr (ms 5, false));
          StatDone 0 (inr (ms 5, false)); Request 1; Tick;
          StatDone 0 (inr (ms 9, false))] = Some s ∧
       stats s = [(3%nat, "/srv")] ∧
       disk_state_value s = [Entry "/srv" (ms 5)] ∧
       disk_state_value s = last_stored (trace s).
Proof.
  eexists. split; [vm_compute; reflexivity|]. split_and!; [done..|].
  apply (baseline_not_modified_after_store "/srv" None posix_join
           [Request 0; Tick; StatDone 0 (inr (ms 5, false));
            StatDone 0 (inr (ms 5, false)); Request 1; Tick;
            StatDone 0 (inr (ms 9, false))]).
  - repeat constructor.
  - vm_compute; reflexivity.
Defined.

(** The condition is needed: after a failed [fs.stat] the same
    [gatherState] call can still report success (C3), its array is
    assigned to [this.disk_state], and a call still in flight then
    pushes onto that array. *)
Lemma baseline_modified_after_fs_error :
  ∃ s, run "/srv" None posix_join initial
         [Request 0; Tick; StatDone 0 (inr (ms 5, false));
          StatDone 0 (inr (ms 5, true)); ReaddirDone 0 (inr ["a"; "b"]);
          StatDone 0 (inl "ENOENT"); StatDone 0 (inr (ms 6, true));
          ReaddirDone 0 (inr ["x"; "y"; "z"]);
          StatDone 0 (inr (ms 7, false)); StatDone 0 (inr (ms 8, false))]
       = Some s ∧
       last_stored (trace s) =
         [Entry "/srv" (ms 5); Entry "/srv/b" (ms 6);
          Entry "/srv/b/x" (ms 7)] ∧
       disk_state_value s =
         [Entry "/srv" (ms 5); Entry "/srv/b" (ms 6);
          Entry "/srv/b/x" (ms 7); Entry "/srv/b/y" (ms 8)].
Proof. eexists. split; [vm_compute; reflexivity|]. by split. Qed.

(** ** Requests and their answers *)

Lemma answered_app (t d : list obs) :
  answered (t ++ d) = answered t ++ answered d.
Proof. apply omap_app. Qed.

Lemma requested_app (es es' : list event) :
  requested (es ++ es') = requested es ++ requested es'.
Proof. apply omap_app. Qed.

Lemma lock_queue_lock (r : nat) (q : LockQueue) :
  lock_queue (lock r q) = lock_queue q ++ [r].
Proof. unfold lock. by case_bool_decide. Qed.

Lemma lock_queue_unlock (q : LockQueue) :
  lock_queue (unlock q) = tail (lock_queue q).
Proof. unfold unlock. by case_bool_decide. Qed.

Lemma same_requests_refl (s : state) : same_requests s s.
Proof. by repeat split. Qed.

Lemma same_requests_emit (s0 s : state) (o : obs) :
  ¬ is_done o → same_requests s0 s → same_requests s0 (emit o s).
Proof.
  intros Ho (? & Ha & ? & ? & ?). repeat split; try done. simpl.
  rewrite answered_app, Ha. destruct o; simpl; try by rewrite app_nil_r.
  by destruct Ho.
Qed.

Lemma same_requests_update_gather (s0 s : state) (sid : nat)
    (f : gather → gather) :
  same_requests s0 s → same_requests s0 (update_gather sid f s).
Proof. by intros (? & ? & ? & ? & ?). Qed.

Lemma keeps_callbacks_refl (l : list gather) : keeps_callbacks l l.
Proof. intros sid g Hg. by exists g. Qed.

Lemma keeps_callbacks_trans (l1 l2 l3 : list gather) :
  keeps_callbacks l1 l2 → keeps_callbacks l2 l3 → keeps_callbacks l1 l3.
Proof.
  intros H12 H23 sid g3 Hg3.
  destruct (H23 sid g3 Hg3) as (g2 & Hg2 & E2).
  destruct (H12 sid g2 Hg2) as (g1 & Hg1 & E1).
  exists g1. split; [done|congruence].
Qed.

Lemma keeps_callbacks_alter (l : list gather) (sid : nat)
    (f : gather → gather) :
  (∀ g, callback (f g) = callback g) → keeps_callbacks l (alter f sid l).
Proof.
  intros Hf sid' g'. rewrite list_lookup_alter.
  destruct (decide (sid = sid')) as [->|Hne]; [|by exists g'].
  destruct (l !! sid') as [g|]; simpl; [|done].
  intros [= <-]. by exists g.
Qed.

Lemma building_lookup (s : state) (c : nat) (ch : child) :
  children s !! c = Some ch → signaled ch = false → building c s.
Proof.
  intros Hc Hs. unfold building. by rewrite list_lookup_fmap, Hc, <- Hs.
Qed.

(** The pending work keeps its owner when the head of the queue, the
    callbacks and the unfinished children stay and no call of another
    [gatherState] call is added. *)
Lemma owned_frame (s s' : state) :
  owned s →
  head (lock_queue (lockq s')) = head (lock_queue (lockq s)) →
  (∀ p, p ∈ stats s' ++ readdirs s' →
        ∃ q, q ∈ stats s ++ readdirs s ∧ q.1 = p.1) →
  keeps_callbacks (gathers s) (gathers s') →
  (∀ c ch', children s' !! c = Some ch' → signaled ch' = false →
            ∃ ch, children s !! c = Some ch ∧ signaled ch = false ∧
                  child_cb ch = child_cb ch') →
  owned s'.
Proof.
  intros [Ho1 Ho2] Hh Hp Hg Hc. split.
  - intros p g' Hin Hsid. rewrite Hh.
    destruct (Hp p Hin) as (q & Hq & Eq).
    destruct (Hg _ _ Hsid) as (g & Hg1 & <-).
    apply (Ho1 q); [done|]. by rewrite Eq.
  - intros c ch' Hch Hsg. rewrite Hh.
    destruct (Hc c ch' Hch Hsg) as (ch & Hch1 & Hsg1 & <-). by eapply Ho2.
Qed.

Section Answers.
Variable root : string.
Variable rebuild_command : option string.
Variable path_join : string → string → string.

Lemma finish_outcome (s0 s : state) (h : nat) (err : value) :
  same_requests s0 s → outcome root h s0 (finish h err s).
Proof.
  intros (Hq & Ha & ? & ? & ?). apply out_finished; simpl.
  - by rewrite Hq.
  - rewrite !answered_app, Ha. simpl. by rewrite app_nil_r.
Qed.

Lemma gatherState_outcome (s0 s : state) (cb : gather_cb) :
  same_requests s0 s →
  outcome root (request_of cb) s0 (gatherState root cb s).
Proof.
  intros (? & ? & Hst & ? & ?).
  apply (out_rescan _ _ _ _ (length (gathers s)) (Gather (0 + 1) [] cb));
    try done; simpl.
  - by rewrite Hst.
  - rewrite list_lookup_alter, decide_True by done.
    by rewrite lookup_app_r, Nat.sub_diag by done.
Qed.

Lemma built_cb_outcome (s0 s : state) (h : nat) (err : value) :
  same_requests s0 s → outcome root h s0 (built_cb root h err s).
Proof.
  intros Hs. unfold built_cb.
  assert (same_requests s0 (emit (OBuilt h err) s)) as Hs'
    by (apply same_requests_emit; [by intros []|done]).
  destruct (truthy err).
  - by apply finish_outcome.
  - by apply (gatherState_outcome _ _ (ResyncCb h)).
Qed.

Lemma rebuild_outcome (s0 s : state) (h : nat) :
  same_requests s0 s → outcome root h s0 (rebuild root rebuild_command h s).
Proof.
  intros Hs. unfold rebuild.
  destruct rebuild_command as [command|]; [case_bool_decide|];
    try by apply built_cb_outcome.
  destruct Hs as (? & Ha & ? & ? & Hch). apply out_spawned; simpl.
  - done.
  - rewrite answered_app, Ha. simpl. by rewrite app_nil_r.
  - by rewrite Hch.
Qed.

Lemma gather_callback_outcome (s0 s : state) (sid : nat) (err : value)
    (g : gather) :
  same_requests s0 s → gathers s !! sid = Some g →
  outcome root (request_of (callback g)) s0
    (gather_callback root rebuild_command sid err s).
Proof.
  intros Hs Hg. unfold gather_callback. rewrite Hg.
  assert (same_requests s0
            (emit (OGather sid (callback g) err (results g)) s)) as Hs1
    by (apply same_requests_emit; [by intros []|done]).
  destruct (callback g) as [r|r]; destruct (truthy err).
  - by apply finish_outcome.
  - rewrite equalsState_decide.
    match goal with |- context [bool_decide ?P] => destruct (bool_decide P) end.
    + apply finish_outcome. by apply same_requests_emit; [intros []|].
    + apply rebuild_outcome. by apply same_requests_emit; [intros []|].
  - by apply finish_outcome.
  - apply finish_outcome. apply same_requests_emit; [by intros []|].
    by destruct Hs1 as (? & ? & ? & ? & ?).
Qed.

Lemma done_outcome (s0 s : state) (sid : nat) :
  same_requests s0 s →
  let s' := done root rebuild_command sid s in
  (same_requests s0 s' ∧ keeps_callbacks (gathers s) (gathers s')) ∨
  (∃ g, gathers s !! sid = Some g ∧
        outcome root (request_of (callback g)) s0 s').
Proof.
  intros Hs. unfold done. simpl.
  set (f1 := λ g, Gather (expected g - 1) (results g) (callback g)).
  set (f2 := λ g, Gather (expected g) (sort_results (results g)) (callback g)).
  case_bool_decide as Hz.
  - destruct (gathers s !! sid) as [g|] eqn:Hg.
    + right. exists g. split; [done|].
      apply (gather_callback_outcome s0 _ sid VNull (f2 (f1 g))).
      * by do 2 apply same_requests_update_gather.
      * simpl. by rewrite !list_lookup_alter, !decide_True, Hg by done.
    + left. unfold gather_callback. simpl.
      rewrite !list_lookup_alter, !decide_True, Hg by done. simpl. split.
      * by do 2 apply same_requests_update_gather.
      * eapply keeps_callbacks_trans; by apply keeps_callbacks_alter.
  - left. split.
    + by apply same_requests_update_gather.
    + by apply keeps_callbacks_alter.
Qed.

Lemma foldl_walk_requests (sid : nat) (p : string) (files : list string)
    (s : state) :
  let s' := foldl (λ s f, walk sid (path_join p f) s) s files in
  lockq s' = lockq s ∧ trace s' = trace s ∧ readdirs s' = readdirs s ∧
  children s' = children s ∧
  stats s' = stats s ++ ((λ f, (sid, path_join p f)) <$> files) ∧
  keeps_callbacks (gathers s) (gathers s').
Proof.
  revert s. induction files as [|f files IH]; intros s; simpl.
  - rewrite app_nil_r. split_and!; [done..|apply keeps_callbacks_refl].
  - destruct (IH (walk sid (path_join p f) s))
      as (-> & -> & -> & -> & -> & Hk).
    simpl. rewrite <- app_assoc. split_and!; [done..|].
    eapply keeps_callbacks_trans; [|exact Hk]. by apply keeps_callbacks_alter.
Qed.

(** After the chain the pending work is owned again, and the answers
    followed by the queue are what they were. *)
Lemma outcome_answered (s0 s' : state) (h : nat) :
  exclusive s' → head (lock_queue (lockq s0)) = Some h →
  outcome root h s0 s' →
  owned s' ∧
  answered (trace s') ++ lock_queue (lockq s') =
  answered (trace s0) ++ lock_queue (lockq s0).
Proof.
  intros (Hth & held & Hph & Hcnt & Hlq) Hh Hout.
  destruct (lock_queue (lockq s0)) as [|h' t] eqn:Hq0; [done|].
  simpl in Hh. injection Hh as ->.
  destruct Hout as [Hq Ha|sid g Hq Ha Hst Hg Hcb|Hq Ha Hch].
  - (* answered: nothing is pending any more *)
    rewrite Hq in Hlq |- *. rewrite lock_queue_unlock, Hq0, Ha. simpl.
    rewrite <- app_assoc. split; [|done].
    assert (held = false) as ->.
    { unfold unlock in Hlq. rewrite Hq0 in Hlq. simpl in Hlq.
      destruct t as [|h2 t]; simpl in Hlq; [by destruct Hlq|].
      destruct held; [done|done]. }
    inversion Hph as [Hs Hr Hnone| |]. split.
    + rewrite Hs, Hr. by intros p g []%elem_of_nil.
    + intros c ch Hc Hsg. destruct (Hnone c). by eapply building_lookup.
  - (* a [gatherState] call works on *)
    rewrite Hq, Ha, Hq0. split; [|done].
    destruct Hph as [Hs _ _|sid' _ Hall Hnone|c Hs _ _ _];
      [rewrite Hs in Hst; by destruct (stats s0)| |
       rewrite Hs in Hst; by destruct (stats s0)].
    rewrite list.Forall_forall in Hall.
    assert (sid' = sid) as ->.
    { symmetry. apply (Hall (sid, root)). rewrite Hst.
      apply elem_of_app. left. apply elem_of_app. right. by left. }
    split.
    + intros p g' Hin Hsid. rewrite (Hall p Hin) in Hsid.
      rewrite Hg in Hsid. injection Hsid as <-. by rewrite Hq, Hq0, Hcb.
    + intros c ch Hc Hsg. destruct (Hnone c). by eapply building_lookup.
  - (* a child works on *)
    rewrite Hq, Ha, Hq0. split; [|done].
    assert (building (length (children s0)) s') as Hnew.
    { unfold building. rewrite Hch, fmap_app, lookup_app_r;
        rewrite length_fmap; [|done]. by rewrite Nat.sub_diag. }
    destruct Hph as [_ _ Hnone|sid' _ _ Hnone|c Hs Hr _ Hu];
      [by destruct (Hnone _ Hnew)..|].
    split.
    + rewrite Hs, Hr. by intros p g []%elem_of_nil.
    + intros c' ch Hc Hsg. rewrite Hq, Hq0. simpl.
      pose proof (building_lookup _ _ _ Hc Hsg) as Hb.
      rewrite (Hu _ Hb), <- (Hu _ Hnew) in Hc.
      rewrite Hch, lookup_app_r, Nat.sub_diag in Hc by done.
      simpl in Hc. by injection Hc as <-.
Qed.

Lemma step_answered (s s' : state) (e : event) :
  fs_ok e = true →
  step root rebuild_command path_join s e = Some s' →
  exclusive s' → owned s →
  owned s' ∧
  answered (trace s') ++ lock_queue (lockq s') =
  (answered (trace s) ++ lock_queue (lockq s)) ++ requested [e].
Proof.
  intros Hok Hstep Hex Hown. unfold step in Hstep.
  destruct (thrown s); [done|].
  destruct e as [r| |i res|i res|c ce];
    destruct (next_ticks (lockq s)) as [|n] eqn:Hn; try done.
  - (* a request *)
    simplify_eq. simpl. rewrite lock_queue_lock, app_assoc. split; [|done].
    destruct Hown as [Ho1 Ho2]. split; simpl; rewrite lock_queue_lock.
    + intros p g Hin Hsid. specialize (Ho1 p g Hin Hsid).
      destruct (lock_queue (lockq s)); [done|exact Ho1].
    + intros c ch Hc Hsg. specialize (Ho2 c ch Hc Hsg).
      destruct (lock_queue (lockq s)); [done|exact Ho2].
  - (* a tick *)
    simplify_eq. unfold dispatch_tick, _dispatch in Hex |- *.
    simpl in Hex |- *. rewrite app_nil_r.
    destruct (head (lock_queue (lockq s))) as [r|] eqn:Hh.
    + set (s1 := emit (OLocked r) _) in Hex |- *.
      destruct (outcome_answered s1 (gatherState root (ScanCb r) s1) r)
        as [H1 H2]; [done|done| |].
      * apply (gatherState_outcome s1 s1 (ScanCb r)), same_requests_refl.
      * split; [done|]. rewrite H2. subst s1. simpl.
        by rewrite answered_app, app_nil_r.
    + simpl. split; [|done].
      apply (owned_frame s _ Hown); simpl;
        [done|by eauto|apply keeps_callbacks_refl|by eauto].
  - (* [fs.stat] calls back *)
    destruct (stats s !! i) as [[sid p]|] eqn:Hi; [|done].
    simpl in Hstep. simplify_eq. rewrite app_nil_r.
    pose proof (list_elem_of_lookup_2 _ _ _ Hi) as Hin.
    destruct res as [err|[m d]]; [done|]; simpl.
    set (s1 := update_gather sid _ _).
      assert (keeps_callbacks (gathers s) (gathers s1)) as Hk1
        by (by apply keeps_callbacks_alter).
      destruct d.
      * (* a directory *)
        simpl. split; [|done].
        apply (owned_frame s _ Hown); simpl; [done| |done|by eauto].
        intros q [Hq|[Hq|Hq%list_elem_of_singleton]%elem_of_app]%elem_of_app.
        -- exists q. split; [|done]. apply elem_of_app. left.
           by eapply list_elem_of_delete_inv.
        -- exists q. split; [|done]. apply elem_of_app. by right.
        -- subst q. exists (sid, p). split; [|done]. apply elem_of_app.
           by left.
      * (* a file *)
        destruct (done_outcome s1 s1 sid (same_requests_refl _))
          as [[(Hq & Ha & Hst & Hrd & Hch) Hk]|(g1 & Hg1 & Hout)].
        -- rewrite Hq, Ha. split; [|done].
           apply (owned_frame s _ Hown); [by rewrite Hq| |
             by eapply keeps_callbacks_trans|rewrite Hch; by eauto].
           rewrite Hst, Hrd. simpl.
           intros q [Hq'|Hq']%elem_of_app; exists q; (split; [|done]);
             apply elem_of_app; [left|by right].
           by eapply list_elem_of_delete_inv.
        -- destruct (Hk1 _ _ Hg1) as (g & Hg & Ecb).
           destruct (outcome_answered s1 (done root rebuild_command sid s1)
                       (request_of (callback g1)))
             as [H1 H2]; [exact Hex| |exact Hout|by split].
           simpl. rewrite <- Ecb. destruct Hown as [Ho1 _].
           apply (Ho1 (sid, p)); [|done]. apply elem_of_app. by left.
  - (* [fs.readdir] calls back *)
    destruct (readdirs s !! i) as [[sid p]|] eqn:Hi; [|done].
    simpl in Hstep. simplify_eq. rewrite app_nil_r.
    pose proof (list_elem_of_lookup_2 _ _ _ Hi) as Hin.
    destruct res as [err|files]; [done|]; simpl.
    set (s0 := set_readdirs _ s).
      set (s1 := foldl _ s0 files).
      destruct (foldl_walk_requests sid p files s0)
        as (Hq1 & Ht1 & Hrd1 & Hch1 & Hst1 & Hk1).
      fold s1 in Hq1, Ht1, Hrd1, Hch1, Hst1, Hk1.
      assert (∀ q, q ∈ stats s1 ++ readdirs s1 →
                   ∃ q', q' ∈ stats s ++ readdirs s ∧ q'.1 = q.1) as Hsub.
      { rewrite Hst1, Hrd1. subst s0. simpl.
        intros q [[Hq|Hq]%elem_of_app|Hq]%elem_of_app.
        - exists q. split; [|done]. apply elem_of_app. by left.
        - apply list_elem_of_fmap in Hq as (f' & -> & _).
          exists (sid, p). split; [|done]. apply elem_of_app. by right.
        - exists q. split; [|done]. apply elem_of_app. right.
          by eapply list_elem_of_delete_inv. }
      destruct (done_outcome s1 s1 sid (same_requests_refl _))
        as [[(Hq & Ha & Hst & Hrd & Hch) Hk]|(g1 & Hg1 & Hout)].
      * rewrite Hq, Ha, Hq1, Ht1. split; [|done].
        apply (owned_frame s _ Hown); [by rewrite Hq, Hq1| |
          by eapply keeps_callbacks_trans|rewrite Hch, Hch1; by eauto].
        rewrite Hst, Hrd. exact Hsub.
      * destruct (Hk1 _ _ Hg1) as (g & Hg & Ecb).
        destruct (outcome_answered s1 (done root rebuild_command sid s1)
                       (request_of (callback g1)))
          as [H1 H2]; [exact Hex| |exact Hout|].
        -- rewrite Hq1. simpl. rewrite <- Ecb. destruct Hown as [Ho1 _].
           apply (Ho1 (sid, p)); [|done]. apply elem_of_app. by right.
        -- split; [done|]. by rewrite H2, Hq1, Ht1.
  - (* an event on a child *)
    destruct (children s !! c) as [ch|] eqn:Hc; [|done].
    simpl in Hstep. simplify_eq. rewrite app_nil_r.
    unfold child_event_callback in Hex |- *. rewrite Hc in Hex |- *.
    destruct (child_handler ch ce) as [ch' [v|]] eqn:Hh.
    + (* the first ["error"] or ["exit"] *)
      assert (signaled ch = false ∧ child_cb ch' = child_cb ch) as [Hsg _].
      { destruct ce; simpl in Hh; destruct (signaled ch); by simplify_eq. }
      set (s1 := set_children _ s) in Hex |- *.
      destruct (outcome_answered s1 (built_cb root (child_cb ch) v s1)
                  (child_cb ch)) as [H1 H2];
        [exact Hex| |apply built_cb_outcome, same_requests_refl|by split].
      simpl. destruct Hown as [_ Ho2]. by apply (Ho2 c ch).
    + assert (signaled ch' = signaled ch ∧ child_cb ch' = child_cb ch)
        as [Hsg Hcb].
      { destruct ce; simpl in Hh; destruct (signaled ch) eqn:E;
          simplify_eq; by rewrite ?E. }
      split; [|done].
      apply (owned_frame s _ Hown); simpl;
        [done|by eauto|apply keeps_callbacks_refl|].
      intros c' ch2 Hc' Hsg2. destruct (decide (c' = c)) as [->|Hne].
      * rewrite list_lookup_insert_eq in Hc' by (by eapply lookup_lt_Some).
        injection Hc' as <-. exists ch. split_and!; [done|congruence|done].
      * rewrite list_lookup_insert_ne in Hc' by done. by exists ch2.
Qed.

Lemma run_answered (es : list event) (s s' : state) :
  Forall (λ e, fs_ok e = true) es →
  run root rebuild_command path_join s es = Some s' →
  gather_inv s → exclusive s → owned s →
  answered (trace s') ++ lock_queue (lockq s') =
  (answered (trace s) ++ lock_queue (lockq s)) ++ requested es.
Proof.
  revert s. induction es as [|e es IH]; intros s Hok Hrun; simpl in Hrun.
  - injection Hrun as <-. intros _ _ _. simpl. by rewrite app_nil_r.
  - inversion Hok as [|e' es' He Hes]; subst.
    destruct (step root rebuild_command path_join s e) as [s1|] eqn:Hs;
      [|done].
    simpl in Hrun. intros Hinv Hex Hown.
    pose proof (step_exclusive _ _ _ _ _ _ He Hs Hinv Hex) as Hex1.
    destruct (step_answered _ _ _ He Hs Hex1 Hown) as [Hown1 Heq].
    rewrite (IH s1 Hes Hrun); [|by eapply step_inv|done|done].
    rewrite Heq, <- app_assoc. f_equal.
    change (e :: es) with ([e] ++ es). by rewrite requested_app.
Qed.
End Answers.

(** X14: while no [fs] call fails, the requests answered so far,
    followed by those in the queue, are the requests that arrived, in
    the order of their arrival: each request is answered at most once,
    in its turn, and none is dropped from the queue unanswered. *)
Theorem requests_answered_in_order (root : string)
    (rebuild_command : option string)
    (path_join : string → string → string) (es : list event) (s : state) :
  Forall (λ e, fs_ok e = true) es →
  run root rebuild_command path_join initial es = Some s →
  answered (trace s) ++ lock_queue (lockq s) = requested es.
Proof.
  intros Hok Hrun.
  rewrite (run_answered root rebuild_command path_join es initial s Hok Hrun).
  - done.
  - intros sid. by unfold gather_inv_at.
  - split; [done|]. exists false. split_and!; [|done..].
    apply phase_idle; [done..|]. intros c Hc. by unfold building in Hc.
  - split.
    + by intros p g []%elem_of_nil.
    + by intros c ch.
Qed.

Lemma requests_answered_witness :
  ∃ s, run "/srv" None posix_join initial
         [Request 0; Tick; Request 1; StatDone 0 (inr (ms 5, false));
          Request 2; StatDone 0 (inr (ms 5, false)); Tick;
          StatDone 0 (inr (ms 5, false))] = Some s ∧
       answered (trace s) = [0; 1]%nat ∧
       lock_queue (lockq s) = [2%nat] ∧
       answered (trace s) ++ lock_queue (lockq s) = [0; 1; 2]%nat.
Proof.
  eexists. split; [vm_compute; reflexivity|]. split_and!; [done..|].
  apply (requests_answered_in_order "/srv" None posix_join
           [Request 0; Tick; Request 1; StatDone 0 (inr (ms 5, false));
            Request 2; StatDone 0 (inr (ms 5, false)); Tick;
            StatDone 0 (inr (ms 5, false))]).
  - repeat constructor.
  - vm_compute; reflexivity.
Defined.

(** X15: while no [fs] call fails, no request is left waiting by an idle
    process: when no [fs] call is in flight, no child is awaited and no
    tick is pending, the queue is empty and every request that arrived
    has been answered, in the order of arrival. *)
Theorem idle_process_has_answered_all (root : string)
    (rebuild_command : option string)
    (path_join : string → string → string) (es : list event) (s : state) :
  Forall (λ e, fs_ok e = true) es →
  run root rebuild_command path_join initial es = Some s →
  stats s = [] → readdirs s = [] → (∀ c, ¬ building c s) →
  next_ticks (lockq s) = 0%nat →
  lock_queue (lockq s) = [] ∧ answered (trace s) = requested es.
Proof.
  intros Hok Hrun Hst Hrd Hnone Hticks.
  assert (gather_inv initial) as Hg0 by (intros sid; by unfold gather_inv_at).
  assert (exclusive initial) as Hex0.
  { split; [done|]. exists false. split_and!; [|done..].
    apply phase_idle; [done..|]. intros c Hc. by unfold building in Hc. }
  assert (owned initial) as Hown0.
  { split; [by intros p g []%elem_of_nil|by intros c ch]. }
  pose proof (run_answered root rebuild_command path_join es initial s
                Hok Hrun Hg0 Hex0 Hown0) as Heq.
  destruct (run_exclusive root rebuild_command path_join es initial s
              Hok Hrun Hg0 Hex0) as (_ & _ & held & Hph & _ & Hlq).
  assert (lock_queue (lockq s) = []) as Hq.
  { destruct Hph as [_ _ _|sid Hne _ _|c _ _ Hb _].
    - destruct (lock_queue (lockq s)); [done|]. by rewrite Hticks in Hlq.
    - by rewrite Hst, Hrd in Hne.
    - by destruct (Hnone c). }
  split; [done|]. rewrite Hq, app_nil_r in Heq. by rewrite Heq.
Qed.

Lemma idle_process_witness :
  ∃ s, run "/srv" None posix_join initial
         [Request 0; Tick; StatDone 0 (inr (ms 5, false));
          StatDone 0 (inr (ms 5, false)); Request 1; Tick;
          StatDone 0 (inr (ms 5, false))] = Some s ∧
       stats s = [] ∧ next_ticks (lockq s) = 0%nat ∧
       answered (trace s) = [0; 1]%nat.
Proof.
  eexists. split; [vm_compute; reflexivity|]. split_and!; [done..|].
  apply (idle_process_has_answered_all "/srv" None posix_join
           [Request 0; Tick; StatDone 0 (inr (ms 5, false));
            StatDone 0 (inr (ms 5, false)); Request 1; Tick;
            StatDone 0 (inr (ms 5, false))]).
  - repeat constructor.
  - vm_compute; reflexivity.
  - done.
  - done.
  - intros c Hc. by unfold building in Hc.
  - done.
Defined.
